(** * IQmol: the process-wide server registry (src/Process/ServerRegistry.C)

    A shallow embedding of [IQmol::Process::ServerRegistry].  The registry's
    static data ([s_servers], [s_deletedServers]), the Preferences entry it
    persists to and the diagnostic output it produces are threaded through an
    explicit state; C++ exceptions and violated Qt preconditions are results
    of a small state-and-error monad. *)

From stdpp Require Import base decidable option list strings pretty countable gmap.
From Stdlib Require Import ZArith Lia.

Local Open Scope Z_scope.

(** ** Qt containers *)

(** [QList<T>] with [int] indices.  Qt guards [first], [takeAt], [swap] and
    [operator[]] with [Q_ASSERT]: outside the documented range a debug build
    aborts and a release build reads or writes outside the array.  The
    partial operations return [None] there. *)
Module QList.

Definition size {A} (l : list A) : Z := Z.of_nat (length l).

Definition isEmpty {A} (l : list A) : bool :=
    match l with [] => true | _ :: _ => false end.

Definition append {A} (l : list A) (x : A) : list A := l ++ [x].

Definition in_range {A} (l : list A) (i : Z) : bool :=
    (0 <=? i) && (i <? size l).

Definition at_ {A} (l : list A) (i : Z) : option A :=
    if in_range l i then l !! Z.to_nat i else None.

Definition first {A} (l : list A) : option A :=
    match l with [] => None | x :: _ => Some x end.

Definition takeAt {A} (l : list A) (i : Z) : option (A * list A) :=
    match at_ l i with
    | Some x => Some (x, delete (Z.to_nat i) l)
    | None => None
    end.

Definition swap {A} (l : list A) (i j : Z) : option (list A) :=
    match at_ l i, at_ l j with
    | Some x, Some y => Some (<[Z.to_nat j := x]> (<[Z.to_nat i := y]> l))
    | _, _ => None
    end.

End QList.

(** The string "\n". *)
Definition newline : string := String (Ascii.ascii_of_nat 10) EmptyString.

(** [QString::number(int)]: the decimal numeral. *)
Definition QString_number (n : Z) : string := pretty n.

(** ** ServerConfiguration and Server *)

(** Modelled from the spec: [ServerConfiguration] (ServerConfiguration.h is
    not part of the sources at hand) is an ordered mapping of named settings,
    one of which, [ServerName], is the display name.  The other field names
    stand for the host, protocol and credential settings. *)
Inductive FieldT := ServerName | Connection | HostAddress | UserName.

#[global] Instance FieldT_eq_dec : EqDecision FieldT.
Proof. solve_decision. Defined.

#[global] Instance FieldT_countable : Countable FieldT.
Proof.
  refine (inj_countable'
    (fun f => match f with
              | ServerName => 0%nat | Connection => 1%nat
              | HostAddress => 2%nat | UserName => 3%nat end)
    (fun n => match n with
              | O => ServerName | 1%nat => Connection
              | 2%nat => HostAddress | _ => UserName end) _).
  by intros [].
Defined.

Abbreviation ServerConfiguration := (gmap FieldT string).

Module Config.

Definition value (config : ServerConfiguration) (field : FieldT) : string :=
    default "" (config !! field).

Definition setValue (config : ServerConfiguration) (field : FieldT)
    (v : string) : ServerConfiguration :=
    <[field := v]> config.

End Config.

(** A [Server*]: the address of the object together with the configuration
    the object owns.  Pointer comparisons compare [addr]. *)
Record Server := mkServer {
  addr : nat;
  configuration : ServerConfiguration
}.

(** Modelled from the spec: [Server::name()] (Server.h is not part of the
    sources at hand) is derived from the configuration's name setting. *)
Definition name (s : Server) : string :=
  Config.value (configuration s) ServerName.

(** [IQmol::Exception], identified by its [what()] text. *)
Definition Exception := string.

(** Diagnostic output of the registry, in the order it is produced. *)
Inductive Event :=
| DbgServerDirectory                (* qDebug: "Server Directory set to: "        *)
| DbgReadingFile (path : string)    (* qDebug: "Reading server configutation from: " *)
| DbgAppendingDefault               (* qDebug: "Appending Q-Chem server"         *)
| DbgDump                           (* YamlNode::dump()                          *)
| LogError (msg : string)           (* QLOG_ERROR                                *)
| MsgBoxWarning (msg : string).     (* QMsgBox::warning                          *)

#[global] Instance Event_eq_dec : EqDecision Event.
Proof. solve_decision. Defined.

(** ** External collaborators *)

(** What the parser leaves in its data bank for one file: the accumulated
    diagnostics and the result of [findData<Data::YamlNode>()], a list of
    pointers ([None] is the null pointer). *)
Record ParsedFile (YamlNode : Type) := mkParsedFile {
  errors : list string;
  yamlNodes : list (option YamlNode)
}.
Arguments mkParsedFile {YamlNode} _ _.
Arguments errors {YamlNode} _.
Arguments yamlNodes {YamlNode} _.

(** The interfaces the registry consumes.  [QVariant] is the opaque record
    of the Preferences store and [YamlNode] the legacy configuration block. *)
Record Host (QVariant YamlNode : Type) := mkHost {
  (* ServerConfiguration(QVariant const&), which may throw *)
  fromQVariant : QVariant -> Exception + ServerConfiguration;
  (* ServerConfiguration::toQVariant() *)
  toQVariant : ServerConfiguration -> QVariant;
  (* ServerConfiguration(YamlNode const&) *)
  fromYamlNode : YamlNode -> Exception + ServerConfiguration;
  (* ServerConfiguration(), the hardcoded default *)
  defaultConfiguration : ServerConfiguration;
  (* Preferences::ServerDirectory(): [None] when the directory does not
     exist, otherwise the absolute paths of entryList("*.cfg", QDir::Files) *)
  serverDirectory : option (list string);
  (* QFile::open followed by the parse: [None] when the file cannot be
     opened for reading *)
  parseFile : string -> option (ParsedFile YamlNode)
}.
Arguments mkHost {QVariant YamlNode} _ _ _ _ _ _.
Arguments fromQVariant {QVariant YamlNode} _ _.
Arguments toQVariant {QVariant YamlNode} _ _.
Arguments fromYamlNode {QVariant YamlNode} _ _.
Arguments defaultConfiguration {QVariant YamlNode} _.
Arguments serverDirectory {QVariant YamlNode} _.
Arguments parseFile {QVariant YamlNode} _ _.

(** ** Registry state *)

Record State (QVariant : Type) := mkState {
  s_instance : bool;                       (* s_instance != 0 *)
  s_servers : list Server;
  s_deletedServers : list Server;
  ServerConfigurationList : list QVariant; (* the Preferences entry *)
  heap_next : nat;                         (* address of the next [new Server] *)
  output : list Event
}.
Arguments mkState {QVariant} _ _ _ _ _ _.
Arguments s_instance {QVariant} _.
Arguments s_servers {QVariant} _.
Arguments s_deletedServers {QVariant} _.
Arguments ServerConfigurationList {QVariant} _.
Arguments heap_next {QVariant} _.
Arguments output {QVariant} _.

(** Static initialisation at process start, for a given stored list. *)
Definition process_start {QVariant} (stored : list QVariant) : State QVariant :=
  mkState false [] [] stored 0%nat [].

(** ** Results and the registry monad *)

Inductive Result (A : Type) :=
| Returned (a : A)        (* normal return *)
| Thrown (ex : Exception) (* an IQmol::Exception propagates *)
| Violation               (* a Qt precondition (Q_ASSERT) is violated *)
| Diverged.               (* the loop bound of the model was exhausted *)
Arguments Returned {A} _.
Arguments Thrown {A} _.
Arguments Violation {A}.
Arguments Diverged {A}.

Definition M (QVariant A : Type) : Type :=
  State QVariant -> Result A * State QVariant.

Section Monad.
Context {QVariant : Type}.

Definition ret {A} (a : A) : M QVariant A := fun st => (Returned a, st).

Definition bind {A B} (m : M QVariant A) (f : A -> M QVariant B) : M QVariant B :=
  fun st =>
    match m st with
    | (Returned a, st') => f a st'
    | (Thrown ex, st') => (Thrown ex, st')
    | (Violation, st') => (Violation, st')
    | (Diverged, st') => (Diverged, st')
    end.

Definition throw {A} (ex : Exception) : M QVariant A := fun st => (Thrown ex, st).

Definition violation {A} : M QVariant A := fun st => (Violation, st).

(** try { m } catch (Exception& ex) { handler ex } *)
Definition try_catch (m : M QVariant unit) (handler : Exception -> M QVariant unit)
    : M QVariant unit :=
  fun st =>
    match m st with
    | (Thrown ex, st') => handler ex st'
    | r => r
    end.

Definition get : M QVariant (State QVariant) := fun st => (Returned st, st).

Definition modify (f : State QVariant -> State QVariant) : M QVariant unit :=
  fun st => (Returned tt, f st).

(** A constructor that may throw. *)
Definition construct {A} (r : Exception + A) : M QVariant A :=
  match r with inl ex => throw ex | inr a => ret a end.

(** A guarded Qt operation. *)
Definition guarded {A} (r : option A) : M QVariant A :=
  match r with Some a => ret a | None => violation end.

End Monad.

#[global] Instance M_ret {QVariant} : MRet (M QVariant) := @ret QVariant.
#[global] Instance M_bind {QVariant} : MBind (M QVariant) :=
  fun A B f m => bind m f.

Section Registry.
Context {QVariant YamlNode : Type}.
Variable host : Host QVariant YamlNode.

Abbreviation St := (State QVariant).
Abbreviation Act := (M QVariant).

Definition set_servers (l : list Server) (st : St) : St :=
  mkState (s_instance st) l (s_deletedServers st)
          (ServerConfigurationList st) (heap_next st) (output st).

Definition set_deletedServers (l : list Server) (st : St) : St :=
  mkState (s_instance st) (s_servers st) l
          (ServerConfigurationList st) (heap_next st) (output st).

Definition set_ServerConfigurationList (l : list QVariant) (st : St) : St :=
  mkState (s_instance st) (s_servers st) (s_deletedServers st)
          l (heap_next st) (output st).

Definition set_instance (b : bool) (st : St) : St :=
  mkState b (s_servers st) (s_deletedServers st)
          (ServerConfigurationList st) (heap_next st) (output st).

Definition with_output (events : list Event) (st : St) : St :=
  mkState (s_instance st) (s_servers st) (s_deletedServers st)
          (ServerConfigurationList st) (heap_next st) (output st ++ events).

(** qDebug, QLOG_ERROR and QMsgBox::warning *)
Definition emit (e : Event) : Act unit := modify (with_output [e]).

(** new Server(config) *)
Definition new_Server (config : ServerConfiguration) : Act Server :=
  fun st =>
    (Returned (mkServer (heap_next st) config),
     mkState (s_instance st) (s_servers st) (s_deletedServers st)
             (ServerConfigurationList st) (S (heap_next st)) (output st)).

(** s_servers.append(server) *)
Definition servers_append (server : Server) : Act unit :=
  modify (fun st => set_servers (QList.append (s_servers st) server) st).

(** A [for] loop over a list. *)
Fixpoint forEach {A} (body : A -> Act unit) (l : list A) : Act unit :=
  match l with
  | [] => ret tt
  | x :: l' => body x ;; forEach body l'
  end.

(** *** availableServers (lines 53-61) *)
Definition availableServers (st : St) : list string :=
  map name (s_servers st).

(** *** indexOf (lines 145-151) *)
Fixpoint indexOf_from (l : list Server) (i : Z) (serverName : string) : Z :=
  match l with
  | [] => -1
  | s :: l' =>
      if decide (name s = serverName) then i
      else indexOf_from l' (i + 1) serverName
  end.

Definition indexOf (st : St) (serverName : string) : Z :=
  indexOf_from (s_servers st) 0 serverName.

(** *** find (lines 105-110); [None] is the null pointer *)
Definition find (st : St) (serverName : string) : option Server :=
  let index := indexOf st serverName in
  if 0 <=? index then QList.at_ (s_servers st) index else None.

(** *** saveToPreferences (lines 213-221) *)
Definition saveToPreferences : Act unit :=
  modify (fun st =>
    set_ServerConfigurationList
      (map (fun s => toQVariant host (configuration s)) (s_servers st)) st).

(** Modelled from the spec: [save()] is declared in ServerRegistry.h, which
    is not part of the sources at hand; every mutating operation "persists
    the full collection", so it is [saveToPreferences]. *)
Definition save : Act unit := saveToPreferences.

(** *** addServer (lines 64-81) *)

(** The candidate tried after [count] increments. *)
Definition candidate (base : string) (count : Z) : string :=
  base +:+ "_" +:+ QString_number count.

(** The [while (find(name))] loop; [fuel] bounds the number of further
    iterations.  [count] never exceeds the size of the list (lemma
    [addServer_loop_total]), so the [int] does not overflow. *)
Fixpoint addServer_loop (fuel : nat) (st : St) (base name : string) (count : Z)
    : option string :=
  match find st name with
  | None => Some name
  | Some _ =>
      match fuel with
      | O => None
      | S fuel' =>
          let count := count + 1 in
          addServer_loop fuel' st base (candidate base count) count
      end
  end.

(** Returns the new server and the caller's configuration, which is passed
    by reference and receives the resolved name. *)
Definition addServer (config : ServerConfiguration)
    : Act (Server * ServerConfiguration) :=
  st ← get;
  let base := Config.value config ServerName in
  match addServer_loop (length (s_servers st)) st base base 0 with
  | None => fun st => (Diverged, st)
  | Some name =>
      let config := Config.setValue config ServerName name in
      server ← new_Server config;
      servers_append server ;;
      save ;;
      ret (server, config)
  end.

(** *** remove (lines 113-126) *)

(** s_deletedServers.append(s_servers.takeAt(index)) *)
Definition retire (index : Z) : Act unit :=
  st ← get;
  taken ← guarded (QList.takeAt (s_servers st) index);
  modify (fun st =>
    set_deletedServers (QList.append (s_deletedServers st) (fst taken))
      (set_servers (snd taken) st)).

Definition remove (serverName : string) : Act unit :=
  st ← get;
  let index := indexOf st serverName in
  (if 0 <=? index then retire index else ret tt) ;;
  save.

(** QList<Server*>::indexOf(server): pointers are compared. *)
Fixpoint pointer_indexOf_from (l : list Server) (i : Z) (server : Server) : Z :=
  match l with
  | [] => -1
  | s :: l' =>
      if decide (addr s = addr server) then i
      else pointer_indexOf_from l' (i + 1) server
  end.

Definition remove_server (server : Server) : Act unit :=
  st ← get;
  let index := pointer_indexOf_from (s_servers st) 0 server in
  (if 0 <=? index then retire index else ret tt) ;;
  save.

(** *** moveUp, moveDown (lines 129-142) *)

(** s_servers.swap(i, j) *)
Definition servers_swap (i j : Z) : Act unit :=
  st ← get;
  l ← guarded (QList.swap (s_servers st) i j);
  modify (set_servers l).

Definition moveUp (serverName : string) : Act unit :=
  st ← get;
  let index := indexOf st serverName in
  (if 0 <? index then servers_swap index (index - 1) else ret tt) ;;
  save.

Definition moveDown (serverName : string) : Act unit :=
  st ← get;
  let index := indexOf st serverName in
  (if index <? QList.size (s_servers st) - 1
   then servers_swap index (index + 1) else ret tt) ;;
  save.

(** *** loadFromFile (lines 224-252) *)

(** Returns [ok] and the caller's [serverConfig], passed by reference. *)
Definition loadFromFile (filePath : string) (serverConfig : ServerConfiguration)
    : Act (bool * ServerConfiguration) :=
  match parseFile host filePath with
  | None =>
      emit (LogError ("Server configuraiton file does not exist" +:+ filePath)) ;;
      ret (false, serverConfig)
  | Some parsed =>
      (if QList.isEmpty (errors parsed) then ret tt
       else emit (LogError (String.concat (newline) (errors parsed)))) ;;
      first ← guarded (QList.first (yamlNodes parsed));
      match first with
      | Some node =>
          emit DbgDump ;;
          config ← construct (fromYamlNode host node);
          ret (true, config)
      | None => ret (false, serverConfig)
      end
  end.

(** *** loadFromPreferences (lines 166-210) *)

(** The body of the loop over the stored records (line 173). *)
Definition load_record (record : QVariant) : Act unit :=
  config ← construct (fromQVariant host record);
  server ← new_Server config;
  servers_append server.

Definition load_records : Act unit :=
  st ← get;
  forEach load_record (ServerConfigurationList st).

(** The body of the loop over the directory listing (lines 188-194). *)
Definition import_file (path : string) : Act unit :=
  emit (DbgReadingFile path) ;;
  '(ok, serverConfiguration) ← loadFromFile path (defaultConfiguration host);
  if (ok : bool) then addServer serverConfiguration ;; ret tt
  else ret tt.

Definition load_directory : Act unit :=
  st ← get;
  if QList.isEmpty (s_servers st) then
    emit DbgServerDirectory ;;
    match serverDirectory host with
    | Some listing => forEach import_file listing
    | None => ret tt
    end
  else ret tt.

Definition load_default : Act unit :=
  st ← get;
  if QList.isEmpty (s_servers st) then
    emit DbgAppendingDefault ;;
    server ← new_Server (defaultConfiguration host);
    servers_append server
  else ret tt.

Definition loadFromPreferences : Act unit :=
  try_catch
    (load_records ;; load_directory ;; load_default)
    (fun ex =>
       emit (MsgBoxWarning
         ("Problem loading servers from Preferences file:" +:+ newline +:+ ex))).

(** *** instance (lines 41-50) *)
Definition instance : Act unit :=
  st ← get;
  if s_instance st then ret tt
  else modify (set_instance true) ;; loadFromPreferences.

(** Bootstrap: the first call of [instance()] in a fresh process. *)
Definition bootstrap (stored : list QVariant) : Result unit * St :=
  instance (process_start stored).

(** ** Calls of the mutating operations *)

Inductive Call :=
| AddServer (config : ServerConfiguration)
| Remove (serverName : string)
| RemoveServer (server : Server)
| MoveUp (serverName : string)
| MoveDown (serverName : string).

Definition call (c : Call) : Act unit :=
  match c with
  | AddServer config => addServer config ;; ret tt
  | Remove serverName => remove serverName
  | RemoveServer server => remove_server server
  | MoveUp serverName => moveUp serverName
  | MoveDown serverName => moveDown serverName
  end.

Definition calls (cs : list Call) : Act unit := forEach call cs.

End Registry.

(** ** Operations on the servers themselves *)

(** [Server::open()] and [Server::closeConnection()] are declared in
    Server.h; what the registry contributes is the sequence of calls it
    makes on its servers, recorded here with each call returning. *)
Inductive ServerCall :=
| Open (server : Server)
| CloseConnection (server : Server).

Definition target (c : ServerCall) : Server :=
  match c with
  | Open server => server
  | CloseConnection server => server
  end.

Section Servers.
Context {QVariant : Type}.
Implicit Types (st : State QVariant).

(** *** closeAllConnections (lines 84-90) *)
Definition closeAllConnections st : list ServerCall :=
  map CloseConnection (s_servers st).

(** *** connectServers (lines 93-102) *)
Fixpoint connectServers st (servers : list string) : list ServerCall :=
  match servers with
  | [] => []
  | serverName :: servers =>
      match find st serverName with
      | Some server => Open server :: connectServers st servers
      | None => connectServers st servers
      end
  end.

(** *** destroy (lines 154-163): the pointers handed to [delete], in order *)
Definition destroy st : list Server :=
  s_servers st ++ s_deletedServers st.

(** Every address handed out so far belongs to exactly one live object. *)
Definition heap_exact st : Prop :=
  map addr (s_servers st ++ s_deletedServers st) ≡ₚ seq 0 (heap_next st).

End Servers.

Section LegacyConfigurations.
Context {QVariant YamlNode : Type}.
Variable host : Host QVariant YamlNode.

(** The configuration a legacy file contributes: the one constructed from
    the first block of a file that opens, if that block is present and the
    construction does not throw. *)
Definition file_configuration (path : string) : option ServerConfiguration :=
  match parseFile host path with
  | Some parsed =>
      match QList.first (yamlNodes parsed) with
      | Some (Some node) =>
          match fromYamlNode host node with
          | inr config => Some config
          | inl _ => None
          end
      | _ => None
      end
  | None => None
  end.

End LegacyConfigurations.

(** Two states hold the same registry when they agree on everything but
    the singleton flag and the diagnostics. *)
Definition same_registry {QVariant} (st1 st2 : State QVariant) : Prop :=
  s_servers st1 = s_servers st2 /\
  s_deletedServers st1 = s_deletedServers st2 /\
  ServerConfigurationList st1 = ServerConfigurationList st2 /\
  heap_next st1 = heap_next st2.

(** * Vocabulary of the statements *)

Section Vocabulary.
Context {QVariant YamlNode : Type}.
Variable host : Host QVariant YamlNode.
Implicit Types (st : State QVariant) (s : Server).

(** The names the loop tries, in order: the display name itself, then the
    display name followed by _1, _2, ... *)
Definition suffixed (base : string) (k : nat) : string :=
  match k with
  | O => base
  | S _ => candidate base (Z.of_nat k)
  end.

(** What [saveToPreferences] stores for a given list. *)
Definition serialized (l : list Server) : list QVariant :=
  map (fun s => toQVariant host (configuration s)) l.

(** The state after a mutation that leaves [active] as the list and
    [retired] as the deferred-destruction list, followed by [save]. *)
Definition saved (active retired : list Server) (next : nat) st : State QVariant :=
  mkState (s_instance st) active retired (serialized active) next (output st).

(** How one returning call changes the two lists and the allocator. *)
Inductive transition (st : State QVariant) : list Server -> list Server -> nat -> Prop :=
| unchanged :
    transition st (s_servers st) (s_deletedServers st) (heap_next st)
| added server :
    addr server = heap_next st ->
    name server ∉ availableServers st ->
    transition st (s_servers st ++ [server]) (s_deletedServers st) (S (heap_next st))
| retired l1 s l2 :
    s_servers st = l1 ++ s :: l2 ->
    transition st (l1 ++ l2) (s_deletedServers st ++ [s]) (heap_next st)
| swapped l1 x y l2 :
    s_servers st = l1 ++ x :: y :: l2 ->
    transition st (l1 ++ y :: x :: l2) (s_deletedServers st) (heap_next st).

(** No two entries of [active] share a name. *)
Definition unique_names st : Prop := NoDup (availableServers st).

(** Live objects have pairwise distinct addresses, all handed out already. *)
Definition heap_ok st : Prop :=
  NoDup (map addr (s_servers st ++ s_deletedServers st)) /\
  forall s, s ∈ s_servers st ++ s_deletedServers st -> (addr s < heap_next st)%nat.

(** The stored list is the serialization of [active]. *)
Definition persisted st : Prop :=
  ServerConfigurationList st = serialized (s_servers st).

(** The configurations of the stored records up to the first one whose
    construction throws, and the exception thrown there, if any. *)
Fixpoint decode_all (records : list QVariant) : list ServerConfiguration :=
  match records with
  | [] => []
  | record :: records =>
      match fromQVariant host record with
      | inr config => config :: decode_all records
      | inl _ => []
      end
  end.

Fixpoint decode_error (records : list QVariant) : option Exception :=
  match records with
  | [] => None
  | record :: records =>
      match fromQVariant host record with
      | inr _ => decode_error records
      | inl ex => Some ex
      end
  end.

(** Servers constructed one after the other, starting at address [next]. *)
Fixpoint allocate (next : nat) (configs : list ServerConfiguration) : list Server :=
  match configs with
  | [] => []
  | config :: configs => mkServer next config :: allocate (S next) configs
  end.

Definition warning_text (ex : Exception) : string :=
  "Problem loading servers from Preferences file:" +:+ newline +:+ ex.

Definition load_result (records : list QVariant) : Result unit :=
  match decode_error records with
  | None => Returned tt
  | Some ex => Thrown ex
  end.

(** The diagnostics produced while files are read. *)
Definition file_event (e : Event) : Prop :=
  match e with
  | DbgReadingFile _ | DbgDump | LogError _ => True
  | _ => False
  end.

(** A file is importable when it opens, its first block is present and a
    configuration is constructed from that block. *)
Definition importable (path : string) : Prop :=
  exists parsed node config,
    parseFile host path = Some parsed /\
    QList.first (yamlNodes parsed) = Some (Some node) /\
    fromYamlNode host node = inr config.

(** A file yields nothing when it cannot be opened or its first block
    pointer is null. *)
Definition rejected (path : string) : Prop :=
  parseFile host path = None \/
  exists parsed,
    parseFile host path = Some parsed /\
    QList.first (yamlNodes parsed) = Some None.

(** The state in which the listing is processed. *)
Definition directory_start : State QVariant :=
  with_output [DbgServerDirectory] (set_instance true (process_start [])).

Definition directory_phase : Result unit * State QVariant :=
  match serverDirectory host with
  | Some listing => forEach (import_file host) listing directory_start
  | None => (Returned tt, directory_start)
  end.

(** The display name a configuration carries. *)
Definition display (config : ServerConfiguration) : string :=
  Config.value config ServerName.

(** How the entry at position [i] got its name: it is the first candidate
    for the display name that none of the entries before it carries. *)
Definition resolved_at (names : list string) (i : nat) (base : string) : Prop :=
  exists N : nat,
    names !! i = Some (suffixed base N) /\
    (suffixed base N ∉ take i names) /\
    forall j, (j < N)%nat -> suffixed base j ∈ take i names.

(** As stated: the entry made by the first call that carries a given
    display name is named by that display name. *)
Definition first_use_keeps_name (configs : list ServerConfiguration) : Prop :=
  forall i config,
    configs !! i = Some config ->
    (forall j c, (j < i)%nat -> configs !! j = Some c -> display c <> display config) ->
    availableServers (snd (calls host (map AddServer configs) (process_start [])))
      !! i = Some (display config).

(** As stated: persisting and bootstrapping a fresh process from the stored
    value gives back the configurations of [active], in order. *)
Definition reloads_same (st : State QVariant) : Prop :=
  map configuration
      (s_servers (snd (bootstrap host
                         (ServerConfigurationList (snd (saveToPreferences host st))))))
  = map configuration (s_servers st).

End Vocabulary.

(** ** A concrete host *)

Module Fixture.

(** A stored record either holds a configuration or is damaged. *)
Inductive QVariant := Stored (config : ServerConfiguration) | Corrupt.

Inductive YamlNode := Block (config : ServerConfiguration).

Definition named (n : string) : ServerConfiguration := {[ ServerName := n ]}.

Definition host_with (directory : option (list string))
    (files : string -> option (ParsedFile YamlNode)) : Host QVariant YamlNode :=
  mkHost
    (fun record =>
       match record with
       | Stored config => inr config
       | Corrupt => inl "Server type not found"
       end)
    Stored
    (fun node => match node with Block config => inr config end)
    (named "Q-Chem")
    directory files.

(** No search directory. *)
Definition plain : Host QVariant YamlNode := host_with None (fun _ => None).

(** A search directory with one legacy file that holds one block. *)
Definition legacy : Host QVariant YamlNode :=
  host_with (Some ["/share/cluster.cfg"])
    (fun path =>
       if decide (path = "/share/cluster.cfg")
       then Some (mkParsedFile [] [Some (Block (named "cluster"))])
       else None).

(** A search directory with one legacy file that holds no block. *)
Definition blank : Host QVariant YamlNode :=
  host_with (Some ["/share/empty.cfg"])
    (fun path =>
       if decide (path = "/share/empty.cfg")
       then Some (mkParsedFile [] [])
       else None).

Definition alpha : Server := mkServer 0 (named "alpha").
Definition beta : Server := mkServer 1 (named "beta").
Definition gamma : Server := mkServer 2 (named "gamma").

(** The registry after bootstrap from three stored records. *)
Definition three : State QVariant :=
  mkState true [alpha; beta; gamma] []
          [Stored (named "alpha"); Stored (named "beta"); Stored (named "gamma")]
          3%nat [].

(** The registry after bootstrap from one stored record. *)
Definition one : State QVariant :=
  mkState true [alpha] [] [Stored (named "alpha")] 1%nat [].

End Fixture.

(** Further hosts and states. *)
Module Samples.
Import Fixture.

(** A search directory with two legacy files that both hold a block named
    "cluster", and a third entry that cannot be opened. *)
Definition twins : Host QVariant YamlNode :=
  host_with (Some ["/share/a.cfg"; "/share/gone.cfg"; "/share/b.cfg"])
    (fun path =>
       if decide (path = "/share/a.cfg")
       then Some (mkParsedFile [] [Some (Block (named "cluster"))])
       else if decide (path = "/share/b.cfg")
       then Some (mkParsedFile ["line 3: unknown key"]
                    [Some (Block (named "cluster")); Some (Block (named "other"))])
       else None).

(** A host whose legacy blocks must carry a name, with one file whose block
    carries none followed by a well-formed file. *)
Definition strict : Host QVariant YamlNode :=
  mkHost
    (fun record =>
       match record with
       | Stored config => inr config
       | Corrupt => inl "Server type not found"
       end)
    Stored
    (fun node =>
       match node with
       | Block config =>
           match config !! ServerName with
           | Some _ => inr config
           | None => inl "Server name not found"
           end
       end)
    (named "Q-Chem")
    (Some ["/share/bad.cfg"; "/share/good.cfg"])
    (fun path =>
       if decide (path = "/share/bad.cfg")
       then Some (mkParsedFile [] [Some (Block ∅)])
       else if decide (path = "/share/good.cfg")
       then Some (mkParsedFile [] [Some (Block (named "cluster"))])
       else None).

(** The registry after bootstrap from three stored records and
    [remove("beta")]. *)
Definition two_and_one : State QVariant :=
  mkState true [alpha; gamma] [beta]
          [Stored (named "alpha"); Stored (named "gamma")] 3%nat [].

End Samples.

(** Search directories that hold a single legacy file. *)
Module Lone.
Import Fixture.

(** The only file holds a block from which no configuration can be
    constructed. *)
Definition unbuildable : Host QVariant YamlNode :=
  mkHost
    (fun record =>
       match record with
       | Stored config => inr config
       | Corrupt => inl "Server type not found"
       end)
    Stored
    (fun node =>
       match node with
       | Block config =>
           match config !! ServerName with
           | Some _ => inr config
           | None => inl "Server name not found"
           end
       end)
    (named "Q-Chem")
    (Some ["/share/bad.cfg"])
    (fun path =>
       if decide (path = "/share/bad.cfg")
       then Some (mkParsedFile [] [Some (Block ∅)])
       else None).

End Lone.

(** * Properties *)

(** ** Lookup *)

Section Lookup.
Context {QVariant : Type}.
Implicit Types (st : State QVariant) (l : list Server) (s : Server).

Lemma at_lookup {A} (l : list A) (k : nat) :
  QList.at_ l (Z.of_nat k) = l !! k.
Proof.
  unfold QList.at_, QList.in_range, QList.size. rewrite Nat2Z.id.
  destruct (l !! k) eqn:E.
  - apply lookup_lt_Some in E.
    replace (0 <=? Z.of_nat k) with true by (symmetry; apply Z.leb_le; lia).
    replace (Z.of_nat k <? Z.of_nat (length l)) with true
      by (symmetry; apply Z.ltb_lt; lia).
    done.
  - by destruct (_ && _).
Qed.

Lemma at_negative {A} (l : list A) (i : Z) : i < 0 -> QList.at_ l i = None.
Proof.
  intros Hi. unfold QList.at_, QList.in_range.
  replace (0 <=? i) with false by (symmetry; apply Z.leb_gt; lia). done.
Qed.

(** [indexOf] returns the sentinel exactly for the absent names, and
    otherwise the position of the first entry carrying the name. *)
Lemma indexOf_from_absent l i n :
  n ∉ map name l -> indexOf_from l i n = -1.
Proof.
  revert i. induction l as [|s l IH]; intros i Hn; simpl; [done|].
  rewrite map_cons, not_elem_of_cons in Hn. destruct Hn as [Hs Hl].
  destruct (decide (name s = n)); [congruence|]. by apply IH.
Qed.

Lemma indexOf_from_first l1 s l2 i :
  name s ∉ map name l1 ->
  indexOf_from (l1 ++ s :: l2) i (name s) = i + Z.of_nat (length l1).
Proof.
  revert i. induction l1 as [|p l1 IH]; intros i Hn; simpl.
  - destruct (decide (name s = name s)); [lia|done].
  - rewrite map_cons, not_elem_of_cons in Hn. destruct Hn as [Hp Hl].
    destruct (decide (name p = name s)); [congruence|].
    rewrite IH by done. lia.
Qed.

(** Every name in the list splits it at its first occurrence. *)
Lemma first_occurrence l n :
  n ∈ map name l ->
  exists l1 s l2, l = l1 ++ s :: l2 /\ name s = n /\ n ∉ map name l1.
Proof.
  induction l as [|p l IH]; simpl; intros Hn.
  - by apply elem_of_nil in Hn.
  - destruct (decide (name p = n)) as [Hp|Hp].
    + exists [], p, l. repeat split; [done|]. simpl. apply not_elem_of_nil.
    + apply elem_of_cons in Hn. destruct Hn as [Hn|Hn]; [congruence|].
      destruct (IH Hn) as (l1 & s & l2 & -> & Hs & Hl1).
      exists (p :: l1), s, l2. repeat split; [done|].
      simpl. rewrite not_elem_of_cons. split; [congruence|done].
Qed.

Lemma indexOf_absent st n :
  n ∉ availableServers st <-> indexOf st n = -1.
Proof.
  unfold indexOf, availableServers. split.
  - apply indexOf_from_absent.
  - intros Hi Hn. apply first_occurrence in Hn.
    destruct Hn as (l1 & s & l2 & Hl & <- & Hl1).
    rewrite Hl, indexOf_from_first in Hi by done. lia.
Qed.

Lemma find_split st l1 s l2 :
  s_servers st = l1 ++ s :: l2 -> name s ∉ map name l1 ->
  indexOf st (name s) = Z.of_nat (length l1) /\ find st (name s) = Some s.
Proof.
  intros Hl Hn. unfold find, indexOf. rewrite Hl.
  rewrite indexOf_from_first by done. rewrite Z.add_0_l. split; [done|].
  replace (0 <=? Z.of_nat (length l1)) with true by (symmetry; apply Z.leb_le; lia).
  rewrite at_lookup. by rewrite list_lookup_middle.
Qed.

Lemma find_None st n : find st n = None <-> n ∉ availableServers st.
Proof.
  split.
  - intros Hf Hn. apply first_occurrence in Hn.
    destruct Hn as (l1 & s & l2 & Hl & <- & Hl1).
    destruct (find_split st l1 s l2 Hl Hl1) as [_ Hs]. congruence.
  - intros Hn. unfold find. apply indexOf_absent in Hn. by rewrite Hn.
Qed.

Lemma find_Some st n s :
  find st n = Some s ->
  exists l1 l2, s_servers st = l1 ++ s :: l2 /\ name s = n /\ n ∉ map name l1.
Proof.
  intros Hf. destruct (decide (n ∈ availableServers st)) as [Hn|Hn].
  - apply first_occurrence in Hn.
    destruct Hn as (l1 & s' & l2 & Hl & <- & Hl1).
    destruct (find_split st l1 s' l2 Hl Hl1) as [_ Hs].
    exists l1, l2. by simplify_eq.
  - apply find_None in Hn. congruence.
Qed.

(** The subscript in [find] is always within bounds. *)
Lemma find_in_bounds st n :
  0 <= indexOf st n -> is_Some (QList.at_ (s_servers st) (indexOf st n)).
Proof.
  intros Hi. destruct (find st n) as [s|] eqn:Hf.
  - unfold find in Hf. destruct (0 <=? indexOf st n); [by eexists|done].
  - apply find_None, indexOf_absent in Hf. lia.
Qed.

End Lookup.

(** ** Name resolution in addServer *)

Lemma append_empty_r (s : string) : s +:+ "" = s.
Proof. induction s as [|a s IH]; [done|]. unfold String.app in *. simpl. by rewrite IH. Qed.

#[global] Instance suffixed_inj base : Inj (=) (=) (suffixed base).
Proof.
  assert (Hne : forall k, base <> candidate base k).
  { intros k Hk. unfold candidate in Hk.
    rewrite <- (append_empty_r base) in Hk at 1.
    apply (inj (String.app base)) in Hk. discriminate Hk. }
  intros [|i] [|j] Hij; simpl in Hij; [done| | |].
  - by apply Hne in Hij.
  - symmetry in Hij. by apply Hne in Hij.
  - unfold candidate in Hij.
    apply (inj (String.app base)), (inj (String.app "_")) in Hij.
    apply (inj pretty) in Hij. lia.
Qed.

Section Resolution.
Context {QVariant : Type}.
Implicit Types (st : State QVariant).

(** Pigeonhole: the first [k] candidates cannot all be taken when the list
    has fewer than [k] entries. *)
Lemma taken_candidates_bound st base (k : nat) :
  (forall j, (j < k)%nat -> suffixed base j ∈ availableServers st) ->
  (k <= length (s_servers st))%nat.
Proof.
  intros Htaken.
  assert (Hsub : (suffixed base <$> seq 0 k) ⊆+ availableServers st).
  { apply NoDup_submseteq.
    - apply (NoDup_fmap_2 _), NoDup_seq.
    - intros x Hx. apply list_elem_of_fmap in Hx. destruct Hx as (j & -> & Hj).
      apply elem_of_seq in Hj. apply Htaken. lia. }
  apply submseteq_length in Hsub.
  unfold availableServers in Hsub.
  rewrite length_fmap, length_seq, length_map in Hsub. done.
Qed.

(** The loop terminates within [length s_servers] iterations, on the first
    candidate that is absent. *)
Lemma addServer_loop_total fuel st base (k : nat) :
  (forall j, (j < k)%nat -> suffixed base j ∈ availableServers st) ->
  (length (s_servers st) <= fuel + k)%nat ->
  exists N : nat,
    addServer_loop fuel st base (suffixed base k) (Z.of_nat k)
      = Some (suffixed base N) /\
    (N <= length (s_servers st))%nat /\
    (suffixed base N ∉ availableServers st) /\
    forall j, (j < N)%nat -> suffixed base j ∈ availableServers st.
Proof.
  revert k. induction fuel as [|fuel IH]; intros k Htaken Hfuel.
  - simpl. destruct (find st (suffixed base k)) as [s|] eqn:Hf.
    + exfalso. assert (Hk : suffixed base k ∈ availableServers st).
      { destruct (decide (suffixed base k ∈ availableServers st)); [done|].
        apply find_None in n. congruence. }
      assert (S k <= length (s_servers st))%nat; [|lia].
      apply (taken_candidates_bound st base). intros j Hj.
      destruct (decide (j = k)) as [->|]; [done|]. apply Htaken. lia.
    + exists k. apply find_None in Hf. split; [done|]. split; [|done].
      by apply (taken_candidates_bound st base).
  - simpl. destruct (find st (suffixed base k)) as [s|] eqn:Hf.
    + assert (Hk : suffixed base k ∈ availableServers st).
      { destruct (decide (suffixed base k ∈ availableServers st)); [done|].
        apply find_None in n. congruence. }
      replace (Z.of_nat k + 1) with (Z.of_nat (S k)) by lia.
      change (candidate base (Z.of_nat (S k))) with (suffixed base (S k)).
      apply IH; [|lia]. intros j Hj.
      destruct (decide (j = k)) as [->|]; [done|]. apply Htaken. lia.
    + exists k. apply find_None in Hf. split; [done|]. split; [|done].
      by apply (taken_candidates_bound st base).
Qed.

End Resolution.

(** ** The mutating operations, one call at a time *)

Section Operations.
Context {QVariant YamlNode : Type}.
Variable host : Host QVariant YamlNode.
Implicit Types (st : State QVariant) (s : Server).

Lemma name_setValue config n a :
  name (mkServer a (Config.setValue config ServerName n)) = n.
Proof. unfold name, Config.value, Config.setValue. simpl. by rewrite lookup_insert_eq. Qed.

Lemma addServer_spec config st :
  exists N : nat,
    let resolved := suffixed (Config.value config ServerName) N in
    let config' := Config.setValue config ServerName resolved in
    let server := mkServer (heap_next st) config' in
    addServer host config st =
      (Returned (server, config'),
       saved host (s_servers st ++ [server]) (s_deletedServers st) (S (heap_next st)) st) /\
    (N <= length (s_servers st))%nat /\
    (resolved ∉ availableServers st) /\
    forall j, (j < N)%nat ->
      suffixed (Config.value config ServerName) j ∈ availableServers st.
Proof.
  destruct (addServer_loop_total (length (s_servers st)) st
              (Config.value config ServerName) 0) as (N & Hloop & HN & Habs & Htaken).
  { intros j Hj. lia. }
  { lia. }
  exists N. simpl. split; [|done].
  unfold addServer, mbind, M_bind, bind, get. change (Z.of_nat 0) with 0 in Hloop.
  cbn [suffixed] in Hloop. rewrite Hloop.
  reflexivity.
Qed.

(** QList operations on a list split at the index. *)
Lemma takeAt_middle {A} (l1 : list A) x l2 :
  QList.takeAt (l1 ++ x :: l2) (Z.of_nat (length l1)) = Some (x, l1 ++ l2).
Proof.
  unfold QList.takeAt. rewrite at_lookup, list_lookup_middle by done.
  by rewrite Nat2Z.id, delete_middle.
Qed.

Lemma swap_adjacent {A} (l1 : list A) x y l2 :
  QList.swap (l1 ++ x :: y :: l2) (Z.of_nat (length l1)) (Z.of_nat (length l1) + 1)
    = Some (l1 ++ y :: x :: l2) /\
  QList.swap (l1 ++ x :: y :: l2) (Z.of_nat (length l1) + 1) (Z.of_nat (length l1))
    = Some (l1 ++ y :: x :: l2).
Proof.
  replace (Z.of_nat (length l1) + 1) with (Z.of_nat (S (length l1))) by lia.
  unfold QList.swap. rewrite !at_lookup, !Nat2Z.id.
  rewrite list_lookup_middle by done.
  replace (S (length l1)) with (length (l1 ++ [x])) by (rewrite length_app; simpl; lia).
  rewrite (cons_middle x l1 (y :: l2)), app_assoc.
  rewrite list_lookup_middle by done.
  rewrite <- app_assoc. simpl.
  rewrite length_app. simpl. replace (length l1 + 1)%nat with (S (length l1)) by lia.
  split.
  - rewrite (insert_app_r_alt l1) by lia. rewrite Nat.sub_diag. simpl.
    rewrite (insert_app_r_alt l1) by lia.
    by replace (S (length l1) - length l1)%nat with 1%nat by lia.
  - rewrite (insert_app_r_alt l1 _ (S (length l1))) by lia.
    replace (S (length l1) - length l1)%nat with 1%nat by lia. simpl.
    rewrite (insert_app_r_alt l1) by lia. by rewrite Nat.sub_diag.
Qed.

Lemma swap_negative {A} (l : list A) i j : i < 0 -> QList.swap l i j = None.
Proof. intros Hi. unfold QList.swap. by rewrite at_negative. Qed.

Lemma pointer_indexOf_absent (l : list Server) i s :
  addr s ∉ map addr l -> pointer_indexOf_from l i s = -1.
Proof.
  revert i. induction l as [|p l IH]; intros i Hn; simpl; [done|].
  rewrite map_cons, not_elem_of_cons in Hn. destruct Hn as [Hs Hl].
  destruct (decide (addr p = addr s)); [congruence|]. by apply IH.
Qed.

Lemma pointer_indexOf_first (l1 : list Server) p l2 i s :
  addr p = addr s -> addr s ∉ map addr l1 ->
  pointer_indexOf_from (l1 ++ p :: l2) i s = i + Z.of_nat (length l1).
Proof.
  revert i. induction l1 as [|q l1 IH]; intros i Hp Hn; simpl.
  - destruct (decide (addr p = addr s)); [lia|done].
  - rewrite map_cons, not_elem_of_cons in Hn. destruct Hn as [Hq Hl].
    destruct (decide (addr q = addr s)); [congruence|].
    rewrite IH by done. lia.
Qed.

Arguments QList.at_ : simpl never.
Arguments QList.swap : simpl never.
Arguments QList.takeAt : simpl never.

Ltac run := unfold mbind, M_bind, bind, get, modify, guarded, ret, violation; simpl.

(** *** remove *)

Lemma remove_absent n st :
  n ∉ availableServers st ->
  remove host n st =
    (Returned tt, saved host (s_servers st) (s_deletedServers st) (heap_next st) st).
Proof.
  intros Hn. apply indexOf_absent in Hn. unfold remove. run. by rewrite Hn.
Qed.

Lemma remove_present st l1 s l2 :
  s_servers st = l1 ++ s :: l2 -> name s ∉ map name l1 ->
  remove host (name s) st =
    (Returned tt, saved host (l1 ++ l2) (s_deletedServers st ++ [s]) (heap_next st) st).
Proof.
  intros Hl Hn. destruct (find_split st l1 s l2 Hl Hn) as [Hi _].
  unfold remove, retire. run. rewrite Hi.
  replace (0 <=? Z.of_nat (length l1)) with true by (symmetry; apply Z.leb_le; lia).
  run. by rewrite Hl, takeAt_middle.
Qed.

Lemma remove_server_absent s st :
  addr s ∉ map addr (s_servers st) ->
  remove_server host s st =
    (Returned tt, saved host (s_servers st) (s_deletedServers st) (heap_next st) st).
Proof.
  intros Hn. unfold remove_server. run. by rewrite pointer_indexOf_absent.
Qed.

Lemma remove_server_present st l1 p l2 s :
  s_servers st = l1 ++ p :: l2 -> addr p = addr s -> addr s ∉ map addr l1 ->
  remove_server host s st =
    (Returned tt, saved host (l1 ++ l2) (s_deletedServers st ++ [p]) (heap_next st) st).
Proof.
  intros Hl Hp Hn. unfold remove_server, retire. run.
  rewrite Hl, pointer_indexOf_first, Z.add_0_l by done.
  replace (0 <=? Z.of_nat (length l1)) with true by (symmetry; apply Z.leb_le; lia).
  run. by rewrite Hl, takeAt_middle.
Qed.

(** *** moveUp *)

Lemma moveUp_absent n st :
  n ∉ availableServers st ->
  moveUp host n st =
    (Returned tt, saved host (s_servers st) (s_deletedServers st) (heap_next st) st).
Proof.
  intros Hn. apply indexOf_absent in Hn. unfold moveUp. run. by rewrite Hn.
Qed.

Lemma moveUp_first st s l :
  s_servers st = s :: l ->
  moveUp host (name s) st =
    (Returned tt, saved host (s_servers st) (s_deletedServers st) (heap_next st) st).
Proof.
  intros Hl. destruct (find_split st [] s l Hl) as [Hi _].
  { simpl. apply not_elem_of_nil. }
  unfold moveUp. run. by rewrite Hi.
Qed.

Lemma moveUp_inner st l1 p s l2 :
  s_servers st = l1 ++ p :: s :: l2 -> name s ∉ map name (l1 ++ [p]) ->
  moveUp host (name s) st =
    (Returned tt, saved host (l1 ++ s :: p :: l2) (s_deletedServers st) (heap_next st) st).
Proof.
  intros Hl Hn. destruct (find_split st (l1 ++ [p]) s l2) as [Hi _]; [|done|].
  { by rewrite Hl, <- app_assoc. }
  rewrite length_app in Hi. simpl in Hi.
  unfold moveUp, servers_swap. run. rewrite Hi.
  replace (0 <? Z.of_nat (length l1 + 1)) with true by (symmetry; apply Z.ltb_lt; lia).
  run. rewrite Hl.
  replace (Z.of_nat (length l1 + 1)) with (Z.of_nat (length l1) + 1) by lia.
  replace (Z.of_nat (length l1) + 1 - 1) with (Z.of_nat (length l1)) by lia.
  by rewrite (proj2 (swap_adjacent l1 p s l2)).
Qed.

(** *** moveDown *)

Lemma moveDown_empty n st :
  s_servers st = [] ->
  moveDown host n st =
    (Returned tt, saved host (s_servers st) (s_deletedServers st) (heap_next st) st).
Proof. intros Hl. destruct st. simpl in Hl. by subst. Qed.

(** For a name that is absent from a non-empty list, [index] is -1 and the
    guard [index < size - 1] holds: swap(-1, 0) is attempted. *)
Lemma moveDown_absent n st :
  n ∉ availableServers st -> s_servers st <> [] ->
  fst (moveDown host n st) = Violation.
Proof.
  intros Hn Hl. apply indexOf_absent in Hn. unfold moveDown, servers_swap. run.
  rewrite Hn.
  replace (-1 <? QList.size (s_servers st) - 1) with true.
  - by run.
  - symmetry. apply Z.ltb_lt. unfold QList.size.
    destruct (s_servers st); [congruence|]. simpl. lia.
Qed.

Lemma moveDown_last st l s :
  s_servers st = l ++ [s] -> name s ∉ map name l ->
  moveDown host (name s) st =
    (Returned tt, saved host (s_servers st) (s_deletedServers st) (heap_next st) st).
Proof.
  intros Hl Hn. destruct (find_split st l s [] Hl Hn) as [Hi _].
  unfold moveDown. run. rewrite Hi.
  replace (Z.of_nat (length l) <? QList.size (s_servers st) - 1) with false; [done|].
  symmetry. apply Z.ltb_ge. unfold QList.size. rewrite Hl, length_app. simpl. lia.
Qed.

Lemma moveDown_inner st l1 s q l2 :
  s_servers st = l1 ++ s :: q :: l2 -> name s ∉ map name l1 ->
  moveDown host (name s) st =
    (Returned tt, saved host (l1 ++ q :: s :: l2) (s_deletedServers st) (heap_next st) st).
Proof.
  intros Hl Hn. destruct (find_split st l1 s (q :: l2) Hl Hn) as [Hi _].
  unfold moveDown, servers_swap. run. rewrite Hi.
  replace (Z.of_nat (length l1) <? QList.size (s_servers st) - 1) with true.
  - run. by rewrite Hl, (proj1 (swap_adjacent l1 s q l2)).
  - symmetry. apply Z.ltb_lt. unfold QList.size. rewrite Hl, length_app. simpl. lia.
Qed.

(** *** Every call at once *)

Lemma first_pointer (l : list Server) s :
  addr s ∈ map addr l ->
  exists l1 p l2, l = l1 ++ p :: l2 /\ addr p = addr s /\ addr s ∉ map addr l1.
Proof.
  induction l as [|q l IH]; simpl; intros Hn.
  - by apply elem_of_nil in Hn.
  - destruct (decide (addr q = addr s)) as [Hq|Hq].
    + exists [], q, l. repeat split; [done|]. simpl. apply not_elem_of_nil.
    + apply elem_of_cons in Hn. destruct Hn as [Hn|Hn]; [congruence|].
      destruct (IH Hn) as (l1 & p & l2 & -> & Hp & Hl1).
      exists (q :: l1), p, l2. repeat split; [done|].
      simpl. rewrite not_elem_of_cons. split; [congruence|done].
Qed.

(** A call either returns after one [transition] and a full [save], or it is
    a [moveDown] of an absent name on a non-empty list. *)
Lemma call_outcome c st :
  (exists active retired next,
      call host c st = (Returned tt, saved host active retired next st) /\
      transition st active retired next) \/
  (exists n, c = MoveDown n /\ (n ∉ availableServers st) /\ s_servers st <> [] /\
      fst (call host c st) = Violation).
Proof.
  destruct c as [config|n|s|n|n]; simpl.
  - left. destruct (addServer_spec config st) as (N & Heq & _ & Habs & _).
    simpl in Heq. unfold mbind, M_bind, bind. rewrite Heq.
    eexists _, _, _. split; [reflexivity|].
    apply added; [done|]. by rewrite name_setValue.
  - left. destruct (decide (n ∈ availableServers st)) as [Hn|Hn].
    + apply first_occurrence in Hn. destruct Hn as (l1 & s & l2 & Hl & <- & Hl1).
      rewrite (remove_present st l1 s l2) by done.
      eexists _, _, _. split; [reflexivity|]. by apply retired.
    + rewrite remove_absent by done.
      eexists _, _, _. split; [reflexivity|]. apply unchanged.
  - left. destruct (decide (addr s ∈ map addr (s_servers st))) as [Hn|Hn].
    + apply first_pointer in Hn. destruct Hn as (l1 & p & l2 & Hl & Hp & Hl1).
      rewrite (remove_server_present st l1 p l2) by done.
      eexists _, _, _. split; [reflexivity|]. by apply retired.
    + rewrite remove_server_absent by done.
      eexists _, _, _. split; [reflexivity|]. apply unchanged.
  - left. destruct (decide (n ∈ availableServers st)) as [Hn|Hn].
    + apply first_occurrence in Hn. destruct Hn as (l1 & s & l2 & Hl & <- & Hl1).
      destruct l1 as [|p l1 _] using rev_ind.
      * rewrite (moveUp_first st s l2) by done.
        eexists _, _, _. split; [reflexivity|]. apply unchanged.
      * rewrite <- app_assoc in Hl. simpl in Hl.
        rewrite (moveUp_inner st l1 p s l2) by done.
        eexists _, _, _. split; [reflexivity|]. by apply swapped.
    + rewrite moveUp_absent by done.
      eexists _, _, _. split; [reflexivity|]. apply unchanged.
  - destruct (decide (n ∈ availableServers st)) as [Hn|Hn].
    + left. apply first_occurrence in Hn. destruct Hn as (l1 & s & l2 & Hl & <- & Hl1).
      destruct l2 as [|q l2].
      * rewrite (moveDown_last st l1 s) by done.
        eexists _, _, _. split; [reflexivity|]. apply unchanged.
      * rewrite (moveDown_inner st l1 s q l2) by done.
        eexists _, _, _. split; [reflexivity|]. by apply swapped.
    + destruct (s_servers st) as [|s l] eqn:Hl.
      * left. rewrite moveDown_empty by done. rewrite Hl.
        eexists _, _, _. split; [reflexivity|]. rewrite <- Hl. apply unchanged.
      * right. exists n. repeat split; [done|done|].
        apply moveDown_absent; [done|]. by rewrite Hl.
Qed.

End Operations.

(** ** Invariants of the registry *)

Section Invariants.
Context {QVariant YamlNode : Type}.
Variable host : Host QVariant YamlNode.
Implicit Types (st : State QVariant) (s : Server).

Lemma transition_unique_names st active retired next :
  unique_names st -> transition st active retired next ->
  unique_names (saved host active retired next st).
Proof.
  unfold unique_names, availableServers. simpl.
  intros Hu [|server Ha Hn|l1 s l2 Hl|l1 x y l2 Hl]; [done|..].
  - rewrite map_app. simpl. apply NoDup_app. split; [done|]. split.
    + intros n Hin Hn'. apply list_elem_of_singleton in Hn'. by subst.
    + apply NoDup_singleton.
  - rewrite Hl, map_app in Hu. simpl in Hu.
    rewrite <- Permutation_middle in Hu. apply NoDup_cons in Hu.
    rewrite map_app. apply Hu.
  - rewrite Hl, map_app in Hu. rewrite map_app. simpl in *.
    by rewrite (perm_swap (name x) (name y)).
Qed.

Lemma transition_heap_ok st active retired next :
  heap_ok st -> transition st active retired next ->
  heap_ok (saved host active retired next st).
Proof.
  unfold heap_ok. simpl.
  intros [Hnd Hlt] [|server Ha Hn|l1 s l2 Hl|l1 x y l2 Hl]; [done|..].
  - split.
    + rewrite <- app_assoc. simpl. rewrite <- Permutation_middle. simpl.
      apply NoDup_cons. split; [|done].
      intros Hin. apply list_elem_of_fmap in Hin. destruct Hin as (s & Hs & Hin).
      apply Hlt in Hin. lia.
    + intros s Hs. rewrite <- app_assoc in Hs. simpl in Hs.
      rewrite <- Permutation_middle in Hs. apply elem_of_cons in Hs.
      destruct Hs as [->|Hs]; [lia|]. apply Hlt in Hs. lia.
  - assert (Hp : (l1 ++ l2) ++ s_deletedServers st ++ [s]
                   ≡ₚ s_servers st ++ s_deletedServers st).
    { rewrite Hl, <- !app_assoc. simpl. rewrite <- (Permutation_middle l1).
      rewrite app_assoc, (app_assoc l1). rewrite <- Permutation_cons_append.
      symmetry. apply Permutation_middle. }
    split.
    + by rewrite Hp.
    + intros s' Hs'. rewrite Hp in Hs'. by apply Hlt.
  - assert (Hp : (l1 ++ y :: x :: l2) ++ s_deletedServers st
                   ≡ₚ s_servers st ++ s_deletedServers st).
    { rewrite Hl. by rewrite (perm_swap x y). }
    split.
    + by rewrite Hp.
    + intros s' Hs'. rewrite Hp in Hs'. by apply Hlt.
Qed.

(** Properties kept by every transition are kept by every returning
    sequence of calls. *)
Lemma calls_preserve (P : State QVariant -> Prop) :
  (forall st active retired next,
      P st -> transition st active retired next ->
      P (saved host active retired next st)) ->
  forall cs st st',
    P st -> calls host cs st = (Returned tt, st') -> P st'.
Proof.
  intros Hstep cs. induction cs as [|c cs IH]; intros st st' HP Hrun.
  - unfold calls in Hrun. simpl in Hrun. unfold ret in Hrun. by simplify_eq.
  - unfold calls in Hrun. simpl in Hrun. unfold mbind, M_bind, bind in Hrun.
    destruct (call_outcome host c st)
      as [(a & r & n & Heq & Ht)|(n & _ & _ & _ & Hv)].
    + rewrite Heq in Hrun. eapply IH; [|exact Hrun]. by apply Hstep.
    + destruct (call host c st) as [[] ?]; simpl in Hv; simplify_eq.
Qed.

End Invariants.

(** ** Bootstrap *)

Section Bootstrap.
Context {QVariant YamlNode : Type}.
Variable host : Host QVariant YamlNode.
Implicit Types (st : State QVariant) (s : Server).

Lemma allocate_configuration next configs :
  map configuration (allocate next configs) = configs.
Proof. revert next. induction configs as [|c cs IH]; intros next; simpl; [done|]. by rewrite IH. Qed.

Lemma allocate_length next configs :
  length (allocate next configs) = length configs.
Proof. by rewrite <- (length_map configuration), allocate_configuration. Qed.

(** The loop over the stored records. *)
Lemma load_records_loop records st :
  forEach (load_record host) records st =
    (load_result host records,
     mkState (s_instance st)
             (s_servers st ++ allocate (heap_next st) (decode_all host records))
             (s_deletedServers st) (ServerConfigurationList st)
             (heap_next st + length (decode_all host records)) (output st)).
Proof.
  revert st. induction records as [|record records IH]; intros st.
  - simpl. unfold ret. destruct st. simpl. by rewrite app_nil_r, Nat.add_0_r.
  - unfold load_result in *. cbn [forEach decode_all decode_error].
    unfold mbind, M_bind, bind.
    destruct (load_record host record st) as [r st1] eqn:Hbody.
    unfold load_record, mbind, M_bind, bind, construct in Hbody.
    destruct (fromQVariant host record) as [ex|config].
    + unfold throw in Hbody. simplify_eq. destruct st1. simpl.
      by rewrite app_nil_r, Nat.add_0_r.
    + unfold ret, new_Server, servers_append, modify in Hbody. simplify_eq.
      rewrite IH. simpl. unfold QList.append. rewrite <- app_assoc. simpl.
      by rewrite Nat.add_succ_r.
Qed.

(** With a non-empty stored list the outcome of bootstrap is determined by
    the records alone. *)
Lemma bootstrap_stored stored :
  stored <> [] ->
  bootstrap host stored =
    (Returned tt,
     mkState true (allocate 0 (decode_all host stored)) [] stored
             (length (decode_all host stored))
             (match decode_error host stored with
              | None => []
              | Some ex => [MsgBoxWarning (warning_text ex)]
              end)).
Proof.
  intros Hne. unfold bootstrap, instance, loadFromPreferences, try_catch.
  unfold mbind, M_bind, bind, get, modify, load_records. simpl.
  unfold mbind, M_bind, bind, get. rewrite load_records_loop. simpl.
  unfold load_result. destruct stored as [|record records]; [done|]. simpl.
  destruct (fromQVariant host record) as [ex|config]; simpl.
  - reflexivity.
  - destruct (decode_error host records) as [ex|]; simpl; [reflexivity|].
    unfold load_directory, load_default, mbind, M_bind, bind, get. simpl.
    reflexivity.
Qed.

(** *** Legacy files *)

Lemma with_output_app evs1 evs2 st :
  with_output evs2 (with_output evs1 st) = with_output (evs1 ++ evs2) st.
Proof. unfold with_output. simpl. by rewrite app_assoc. Qed.

Lemma with_output_nil st : with_output [] st = st.
Proof. destruct st. unfold with_output. simpl. by rewrite app_nil_r. Qed.

Ltac break_up :=
  repeat match goal with
         | H : _ \/ _ |- _ => destruct H
         | H : _ /\ _ |- _ => destruct H
         | H : ex _ |- _ => destruct H
         end.

Lemma loadFromFile_outcome path config st :
  exists r evs,
    loadFromFile host path config st = (r, with_output evs st) /\
    Forall file_event evs /\
    (rejected host path -> r = Returned (false, config)) /\
    (importable host path -> exists c, r = Returned (true, c)) /\
    (forall c, r = Returned c -> fst c = true -> importable host path).
Proof.
  unfold loadFromFile, rejected, importable.
  destruct (parseFile host path) as [parsed|].
  - assert (Hlog : exists evs,
        (if QList.isEmpty (errors parsed) then ret tt
         else emit (LogError (String.concat newline (errors parsed)))) st
          = (Returned tt, with_output evs st) /\ Forall file_event evs).
    { destruct (QList.isEmpty (errors parsed)).
      - exists []. by rewrite with_output_nil.
      - eexists [_]. split; [reflexivity|]. by repeat constructor. }
    destruct Hlog as (evs & Hlog & Hevs).
    unfold mbind, M_bind, bind. rewrite Hlog.
    destruct (QList.first (yamlNodes parsed)) as [[node|]|] eqn:Hfirst; simpl.
    + unfold emit, modify, construct. rewrite with_output_app.
      assert (Hevs' : Forall file_event (evs ++ [DbgDump])).
      { apply Forall_app. split; [done|]. by repeat constructor. }
      destruct (fromYamlNode host node) as [ex|c] eqn:Hc; simpl.
      * exists (Thrown ex), (evs ++ [DbgDump]).
        repeat split; [done|..]; intros; break_up; simplify_eq; congruence.
      * exists (Returned (true, c)), (evs ++ [DbgDump]).
        repeat split; [done|..]; intros; break_up; simplify_eq; try congruence.
        -- by eexists.
        -- by eexists _, _, _.
    + exists (Returned (false, config)), evs.
      repeat split; [done|..]; intros; break_up; simplify_eq; congruence.
    + exists Violation, evs.
      repeat split; [done|..]; intros; break_up; simplify_eq; congruence.
  - eexists (Returned (false, config)), [_]. split; [reflexivity|].
    repeat split; [by repeat constructor|..]; intros; break_up; by simplify_eq.
Qed.

(** One iteration of the loop over the listing: either nothing but output
    is produced, or the file is importable and one server is added. *)
Lemma import_file_outcome path st :
  exists evs, Forall file_event evs /\
    ((exists r, import_file host path st = (r, with_output evs st) /\
                (r = Returned tt -> ~ importable host path) /\
                (rejected host path -> r = Returned tt)) \/
     (exists server,
        importable host path /\
        addr server = heap_next st /\
        (name server ∉ availableServers st) /\
        import_file host path st =
          (Returned tt,
           saved host (s_servers st ++ [server]) (s_deletedServers st)
                 (S (heap_next st)) (with_output evs st)))).
Proof.
  unfold import_file, mbind, M_bind, bind, emit, modify.
  destruct (loadFromFile_outcome path (defaultConfiguration host)
              (with_output [DbgReadingFile path] st))
    as (r & evs & Heq & Hevs & Hrej & Himp & Hok).
  rewrite Heq, with_output_app.
  change ([DbgReadingFile path] ++ evs) with (DbgReadingFile path :: evs).
  exists (DbgReadingFile path :: evs). split; [by constructor|].
  destruct r as [[[] c]|ex| |].
  - right.
    destruct (addServer_spec host c (with_output (DbgReadingFile path :: evs) st))
      as (N & Hadd & _ & Habs & _).
    simpl in Hadd. rewrite Hadd. eexists. split; [by eapply Hok|].
    split; [|split]; [| |reflexivity]; [done|]. by rewrite name_setValue.
  - left. exists (Returned tt). split; [done|]. split; [|done].
    intros _ Hi. destruct (Himp Hi) as [? ?]. simplify_eq.
  - left. exists (Thrown ex). split; [done|]. split; [done|].
    intros Hr. by specialize (Hrej Hr).
  - left. exists Violation. split; [done|]. split; [done|].
    intros Hr. by specialize (Hrej Hr).
  - left. exists Diverged. split; [done|]. split; [done|].
    intros Hr. by specialize (Hrej Hr).
Qed.

(** *** The loop over the directory listing *)

Lemma import_loop_preserve (P : State QVariant -> Prop) :
  (forall st evs, Forall file_event evs -> P st -> P (with_output evs st)) ->
  (forall st server,
      P st -> addr server = heap_next st -> name server ∉ availableServers st ->
      P (saved host (s_servers st ++ [server]) (s_deletedServers st)
               (S (heap_next st)) st)) ->
  forall listing st r st',
    P st -> forEach (import_file host) listing st = (r, st') -> P st'.
Proof.
  intros Hout Hadd listing.
  induction listing as [|path listing IH]; intros st r st' HP Hrun.
  - simpl in Hrun. unfold ret in Hrun. by simplify_eq.
  - cbn [forEach] in Hrun. unfold mbind, M_bind, bind in Hrun.
    destruct (import_file_outcome path st)
      as (evs & Hevs & [(r1 & Heq & _)|(server & _ & Ha & Hn & Heq)]).
    + rewrite Heq in Hrun. specialize (Hout st evs Hevs HP).
      destruct r1; simplify_eq; eauto.
    + rewrite Heq in Hrun. eapply IH; [|exact Hrun].
      apply (Hadd (with_output evs st)); auto.
Qed.

Lemma import_loop_importable listing st st' :
  (exists path, path ∈ listing /\ importable host path) ->
  forEach (import_file host) listing st = (Returned tt, st') ->
  s_servers st' <> [].
Proof.
  revert st. induction listing as [|path listing IH]; intros st (p & Hp & Himp) Hrun.
  - by apply elem_of_nil in Hp.
  - cbn [forEach] in Hrun. unfold mbind, M_bind, bind in Hrun.
    destruct (import_file_outcome path st)
      as (evs & Hevs & [(r1 & Heq & Hnot & _)|(server & _ & Ha & Hn & Heq)]).
    + rewrite Heq in Hrun. destruct r1 as [[]|ex| |]; simplify_eq.
      apply (IH (with_output evs st)); [|done]. exists p. split; [|done].
      apply elem_of_cons in Hp. destruct Hp as [->|Hp]; [|done].
      by destruct Hnot.
    + rewrite Heq in Hrun.
      eapply (import_loop_preserve (fun st => s_servers st <> []));
        [| |..|exact Hrun]; simpl.
      * done.
      * intros st0 server0 _ _ _. by destruct (s_servers st0).
      * by destruct (s_servers st).
Qed.

Lemma import_loop_rejected listing st :
  (forall path, path ∈ listing -> rejected host path) ->
  exists evs, Forall file_event evs /\
    forEach (import_file host) listing st = (Returned tt, with_output evs st).
Proof.
  revert st. induction listing as [|path listing IH]; intros st Hrej.
  - exists []. split; [done|]. simpl. by rewrite with_output_nil.
  - cbn [forEach]. unfold mbind, M_bind, bind.
    assert (Hpath : rejected host path) by (apply Hrej; left).
    destruct (import_file_outcome path st)
      as (evs & Hevs & [(r1 & Heq & _ & Hret)|(server & Himp & _)]).
    + rewrite Heq, (Hret Hpath).
      destruct (IH (with_output evs st)) as (evs' & Hevs' & Hloop).
      { intros p Hp. apply Hrej. by right. }
      rewrite Hloop, with_output_app. exists (evs ++ evs'). split; [|done].
      by apply Forall_app.
    + exfalso. unfold importable, rejected in *. break_up; simplify_eq; congruence.
Qed.

(** *** Bootstrap with an empty stored list *)

Lemma bootstrap_empty_store :
  bootstrap host [] =
    match directory_phase host with
    | (Returned _, st) => load_default host st
    | (Thrown ex, st) => (Returned tt, with_output [MsgBoxWarning (warning_text ex)] st)
    | (r, st) => (r, st)
    end.
Proof.
  unfold bootstrap, instance, loadFromPreferences, try_catch, directory_phase.
  unfold load_records, load_directory.
  unfold mbind, M_bind, bind, get, modify. simpl.
  unfold mbind, M_bind, bind, emit, modify. simpl.
  change (with_output [DbgServerDirectory] _) with (@directory_start QVariant).
  destruct (serverDirectory host) as [listing|].
  - destruct (forEach (import_file host) listing directory_start) as [[[]|ex| |] st1];
      try reflexivity.
    unfold load_default, mbind, M_bind, bind, get.
    by destruct (QList.isEmpty (s_servers st1)).
  - simpl. reflexivity.
Qed.

Lemma load_default_outcome st :
  load_default host st =
    (Returned tt,
     if QList.isEmpty (s_servers st)
     then mkState (s_instance st)
                  (s_servers st ++ [mkServer (heap_next st) (defaultConfiguration host)])
                  (s_deletedServers st) (ServerConfigurationList st)
                  (S (heap_next st)) (output st ++ [DbgAppendingDefault])
     else st).
Proof.
  unfold load_default, mbind, M_bind, bind, get.
  by destruct (QList.isEmpty (s_servers st)).
Qed.

End Bootstrap.

(** ** Sequences of addServer calls *)

Section AddServerSequences.
Context {QVariant YamlNode : Type}.
Variable host : Host QVariant YamlNode.
Implicit Types (st : State QVariant) (s : Server).

Lemma take_prefix {A} (l : list A) (n m : nat) :
  (n <= m)%nat -> take n (take m l) = take n l.
Proof. intros Hnm. by rewrite take_take, Nat.min_l. Qed.

Lemma add_all_spec configs st :
  unique_names st ->
  exists st',
    calls host (map AddServer configs) st = (Returned tt, st') /\
    length (s_servers st') = (length (s_servers st) + length configs)%nat /\
    take (length (s_servers st)) (s_servers st') = s_servers st /\
    unique_names st' /\
    forall i config, configs !! i = Some config ->
      resolved_at (availableServers st') (length (s_servers st) + i) (display config).
Proof.
  revert st. induction configs as [|c cs IH]; intros st Hu.
  - exists st. split; [done|]. split; [simpl; lia|].
    split; [by rewrite take_ge|]. split; [done|]. intros i config Hi. done.
  - destruct (addServer_spec host c st) as (N & Heq & _ & Habs & Htaken).
    simpl in Heq.
    set (server := mkServer (heap_next st)
                     (Config.setValue c ServerName (suffixed (Config.value c ServerName) N))) in *.
    set (st1 := saved host (s_servers st ++ [server]) (s_deletedServers st)
                      (S (heap_next st)) st) in *.
    assert (Hu1 : unique_names st1).
    { apply transition_unique_names; [done|]. apply added; [done|].
      unfold server. by rewrite name_setValue. }
    destruct (IH st1 Hu1) as (st' & Hrun & Hlen & Htake & Hu' & Hres).
    assert (Hl1 : length (s_servers st1) = S (length (s_servers st))).
    { simpl. rewrite length_app. simpl. lia. }
    exists st'. split; [|split; [|split; [|split]]].
    + unfold calls in *. cbn [map forEach call]. unfold mbind, M_bind, bind.
      rewrite Heq. exact Hrun.
    + rewrite Hlen, Hl1. simpl. lia.
    + rewrite <- (take_prefix _ (length (s_servers st)) (length (s_servers st1)))
        by lia.
      rewrite Htake. simpl. by rewrite take_app_length.
    + done.
    + assert (Hnames : take (S (length (s_servers st))) (availableServers st')
                       = availableServers st ++ [suffixed (display c) N]).
      { unfold availableServers. rewrite <- Hl1. rewrite <- (fmap_take name). rewrite Htake. simpl.
        rewrite map_app. simpl. unfold server. by rewrite name_setValue. }
      intros [|i] config Hi; simpl in Hi.
      * simplify_eq. rewrite Nat.add_0_r. exists N.
        assert (Hprefix : take (length (s_servers st)) (availableServers st')
                          = availableServers st).
        { rewrite <- (take_prefix _ _ (S (length (s_servers st)))) by lia.
          rewrite Hnames. unfold availableServers at 1.
          rewrite <- (length_map name). by rewrite take_app_length. }
        rewrite Hprefix. split; [|done].
        rewrite <- (lookup_take_lt _ (S (length (s_servers st)))) by lia.
        rewrite Hnames. unfold availableServers.
        rewrite <- (length_map name (s_servers st)). by rewrite list_lookup_middle.
      * replace (length (s_servers st) + S i)%nat
          with (length (s_servers st1) + i)%nat by lia.
        by apply Hres.
Qed.

End AddServerSequences.

(** * The properties C1 to C10 of the specification *)

Section Claim1.
Context {QVariant YamlNode : Type}.
Variable host : Host QVariant YamlNode.

(** C1 (amended).  For every sequence of addServer calls on a registry
    whose names are pairwise distinct, in particular the empty one, and
    whatever display names the configurations carry: all calls return, the
    entries of the calls are appended in order, the resulting active sequence
    has pairwise-distinct names, and the entry of each call is named by the
    first of display name, display name_1, display name_2, ... that no entry
    before it carries.  So an entry keeps its unsuffixed display name exactly
    when no earlier entry carries that name, as the first entry of an empty
    registry does, and two calls with display name "alpha" on the empty
    registry yield "alpha" and "alpha_1", in that order. *)
Theorem addServer_names_resolved (st : State QVariant)
    (configs : list ServerConfiguration) :
  unique_names st ->
  exists st',
    calls host (map AddServer configs) st = (Returned tt, st') /\
    length (s_servers st') = (length (s_servers st) + length configs)%nat /\
    take (length (s_servers st)) (s_servers st') = s_servers st /\
    NoDup (availableServers st') /\
    (forall i config,
        configs !! i = Some config ->
        resolved_at (availableServers st') (length (s_servers st) + i)
                    (display config)) /\
    (s_servers st = [] ->
     forall config,
       head configs = Some config ->
       head (availableServers st') = Some (display config)) /\
    (s_servers st = [] ->
     forall c1 c2,
       configs = [c1; c2] -> display c1 = "alpha" -> display c2 = "alpha" ->
       availableServers st' = ["alpha"; "alpha_1"]).
Proof.
  intros Hunique.
  destruct (add_all_spec host configs st Hunique)
    as (st' & Hrun & Hlen & Htake & Hu & Hres).
  exists st'.
  assert (Hfirst : s_servers st = [] -> forall config,
                     head configs = Some config ->
                     head (availableServers st') = Some (display config)).
  { intros Hempty config Hc. rewrite Hempty in Hres. simpl in Hres.
    destruct configs as [|c cs]; simplify_eq/=.
    destruct (Hres 0%nat config eq_refl) as (N & Hn & _ & Htaken).
    destruct N as [|N]; [|specialize (Htaken 0%nat ltac:(lia)); by apply elem_of_nil in Htaken].
    by rewrite head_lookup. }
  split; [done|]. split; [done|]. split; [done|]. split; [done|].
  split; [done|]. split; [done|].
  intros Hempty c1 c2 -> H1 H2.
  specialize (Hfirst Hempty c1 eq_refl). rewrite H1 in Hfirst.
  rewrite Hempty in Hres, Hlen. simpl in Hres, Hlen.
  destruct (Hres 1%nat c2 eq_refl) as (N & Hn & Habs & Htaken). rewrite H2 in *.
  unfold availableServers in *.
  destruct (map name (s_servers st')) as [|n1 [|n2 [|n3 names]]] eqn:Hnames;
    try (apply (f_equal length) in Hnames; rewrite length_map, Hlen in Hnames;
         simpl in Hnames; lia).
  simpl in *. simplify_eq.
  destruct N as [|[|N]].
  - exfalso. apply Habs. simpl. left.
  - done.
  - specialize (Htaken 1%nat ltac:(lia)). apply list_elem_of_singleton in Htaken.
    vm_compute in Htaken. discriminate Htaken.
Qed.

End Claim1.

Lemma addServer_names_resolved_witness :
  availableServers
    (snd (calls Fixture.plain
            (map AddServer [Fixture.named "alpha"; Fixture.named "alpha"])
            (process_start [])))
  = ["alpha"; "alpha_1"].
Proof.
  destruct (addServer_names_resolved Fixture.plain (process_start [])
              [Fixture.named "alpha"; Fixture.named "alpha"])
    as (st' & Hrun & _ & _ & _ & _ & _ & Hexample).
  - apply NoDup_nil_2.
  - rewrite Hrun. simpl. by apply (Hexample eq_refl _ _ eq_refl).
Defined.

(** C1, as stated, fails: after two calls with display name "alpha" the
    name "alpha_1" is taken, so the first call that carries the display name
    "alpha_1" is entered as "alpha_1_1". *)
Lemma first_use_renamed :
  availableServers
    (snd (calls Fixture.plain
            (map AddServer
               [Fixture.named "alpha"; Fixture.named "alpha"; Fixture.named "alpha_1"])
            (process_start [])))
    = ["alpha"; "alpha_1"; "alpha_1_1"] /\
  ~ first_use_keeps_name Fixture.plain
      [Fixture.named "alpha"; Fixture.named "alpha"; Fixture.named "alpha_1"].
Proof.
  split; [by vm_compute|].
  intros Hkeeps.
  specialize (Hkeeps 2%nat (Fixture.named "alpha_1") eq_refl).
  assert (Hfresh : forall j c, (j < 2)%nat ->
            [Fixture.named "alpha"; Fixture.named "alpha"; Fixture.named "alpha_1"] !! j
              = Some c ->
            display c <> display (Fixture.named "alpha_1")).
  { intros [|[|j]] c Hj Hc; simplify_eq/=; [by vm_compute..|lia]. }
  specialize (Hkeeps Hfresh). vm_compute in Hkeeps. discriminate Hkeeps.
Qed.

Section Claim2.
Context {QVariant YamlNode : Type}.
Variable host : Host QVariant YamlNode.

(** The parts of the precedence of bootstrap that hold for every host.
    With a non-empty stored list the search directory is never looked up and
    no file is read.  With an empty stored list and an importable file in
    the listing, the hardcoded default is not appended.  With an empty stored
    list and a directory that is absent, or whose files all are unreadable or
    have a null first block pointer, bootstrap returns and [active] is
    exactly one server built from the default configuration. *)
Theorem bootstrap_precedence (stored : list QVariant) :
  let st' := snd (bootstrap host stored) in
  (stored <> [] ->
     (DbgServerDirectory ∉ output st') /\
     forall path, DbgReadingFile path ∉ output st') /\
  (stored = [] ->
     forall listing path,
       serverDirectory host = Some listing -> path ∈ listing ->
       importable host path ->
       DbgAppendingDefault ∉ output st') /\
  (stored = [] ->
     (serverDirectory host = None \/
      exists listing, serverDirectory host = Some listing /\
                      forall path, path ∈ listing -> rejected host path) ->
     fst (bootstrap host stored) = Returned tt /\
     map configuration (s_servers st') = [defaultConfiguration host] /\
     DbgAppendingDefault ∈ output st').
Proof.
  simpl. split; [|split].
  - intros Hne. rewrite bootstrap_stored by done. simpl.
    destruct (decode_error host stored); (split; [|intros path]);
      rewrite ?elem_of_nil, ?list_elem_of_singleton; by intros ?.
  - intros -> listing path Hdir Hpath Himp. rewrite bootstrap_empty_store.
    unfold directory_phase. rewrite Hdir.
    destruct (forEach (import_file host) listing (directory_start (QVariant:=QVariant)))
      as [r st1] eqn:Hloop.
    assert (Hout : DbgAppendingDefault ∉ output st1).
    { eapply (import_loop_preserve host (fun st => DbgAppendingDefault ∉ output st));
        [| |..|exact Hloop]; simpl.
      - intros st evs Hevs Hst Hin. apply elem_of_app in Hin.
        destruct Hin as [Hin|Hin]; [done|].
        rewrite Forall_forall in Hevs. by apply Hevs in Hin.
      - done.
      - rewrite list_elem_of_singleton. by intros ?. }
    destruct r as [[]|ex| |]; simpl; [|by rewrite elem_of_app, list_elem_of_singleton;
                                          intros [?|?]|done|done].
    rewrite load_default_outcome.
    assert (Hne : s_servers st1 <> []).
    { eapply import_loop_importable; [|exact Hloop]. by exists path. }
    destruct (s_servers st1); [done|]. done.
  - intros -> Hnothing. rewrite bootstrap_empty_store. unfold directory_phase.
    assert (Hphase : exists evs,
              match serverDirectory host with
              | Some listing => forEach (import_file host) listing directory_start
              | None => (Returned tt, directory_start)
              end = (Returned tt, with_output evs (directory_start (QVariant:=QVariant)))).
    { destruct Hnothing as [->|(listing & -> & Hrej)].
      - exists []. by rewrite with_output_nil.
      - destruct (import_loop_rejected host listing directory_start Hrej)
          as (evs & _ & Hloop). by exists evs. }
    destruct Hphase as (evs & ->). rewrite load_default_outcome. simpl.
    split; [done|]. split; [done|].
    apply elem_of_cons. right. apply elem_of_app. right. by apply list_elem_of_singleton.
Qed.

End Claim2.

Lemma bootstrap_precedence_witness :
  (DbgServerDirectory ∉
     output (snd (bootstrap Fixture.plain [Fixture.Stored (Fixture.named "alpha")]))) /\
  (DbgAppendingDefault ∉ output (snd (bootstrap Fixture.legacy []))) /\
  map configuration (s_servers (snd (bootstrap Fixture.plain [])))
    = [Fixture.named "Q-Chem"].
Proof.
  split; [|split].
  - apply (bootstrap_precedence Fixture.plain [Fixture.Stored (Fixture.named "alpha")]).
    discriminate.
  - destruct (bootstrap_precedence Fixture.legacy []) as (_ & Hfiles & _).
    apply (Hfiles eq_refl ["/share/cluster.cfg"] "/share/cluster.cfg" eq_refl).
    + apply list_elem_of_singleton. reflexivity.
    + exists (mkParsedFile [] [Some (Fixture.Block (Fixture.named "cluster"))]),
        (Fixture.Block (Fixture.named "cluster")), (Fixture.named "cluster").
      repeat split.
  - destruct (bootstrap_precedence Fixture.plain []) as (_ & _ & Hdefault).
    apply (Hdefault eq_refl). left. reflexivity.
Defined.

Section Claim2Fallback.
Context {QVariant YamlNode : Type}.
Variable host : Host QVariant YamlNode.

(** C2 (what the code does).  With an empty stored list and a search
    directory whose only file opens but is not importable, the default is
    not reached.  If the file holds no block, [loadFromFile] calls
    [yaml.first()] on the empty list and bootstrap does not return.  If the
    construction from its first block throws, the exception leaves the [try]
    block past the default fallback and bootstrap returns after the warning.
    In both cases [active] is empty and the hardcoded default is not
    appended. *)
Theorem bootstrap_lone_file_not_importable (path : string)
    (parsed : ParsedFile YamlNode) :
  serverDirectory host = Some [path] ->
  parseFile host path = Some parsed ->
  (yamlNodes parsed = [] ->
     ~ importable host path /\
     fst (bootstrap host []) = Violation /\
     s_servers (snd (bootstrap host [])) = [] /\
     (DbgAppendingDefault ∉ output (snd (bootstrap host [])))) /\
  (forall node ex,
     QList.first (yamlNodes parsed) = Some (Some node) ->
     fromYamlNode host node = inl ex ->
     ~ importable host path /\
     fst (bootstrap host []) = Returned tt /\
     s_servers (snd (bootstrap host [])) = [] /\
     (MsgBoxWarning (warning_text ex) ∈ output (snd (bootstrap host []))) /\
     (DbgAppendingDefault ∉ output (snd (bootstrap host [])))).
Proof.
  intros Hdir Hopen. split.
  - intros Hnone.
    assert (Hfirst : QList.first (yamlNodes parsed) = None) by by rewrite Hnone.
    split.
    { intros (p & node & c & Ho & Hf & _). congruence. }
    rewrite bootstrap_empty_store. unfold directory_phase. rewrite Hdir. cbn [forEach].
    unfold mbind, M_bind, bind, import_file, mbind, M_bind, bind, loadFromFile.
    rewrite Hopen. unfold mbind, M_bind, bind. rewrite Hfirst.
    destruct (QList.isEmpty (errors parsed)); simpl;
      (split; [done|]; split; [done|]);
      rewrite ?elem_of_cons, ?elem_of_nil; intros Hin; decompose [or] Hin;
      try done; simplify_eq.
  - intros node ex Hfirst Hthrow. split.
    { intros (p & node' & c & Ho & Hf & Hc). congruence. }
    rewrite bootstrap_empty_store. unfold directory_phase. rewrite Hdir. cbn [forEach].
    unfold mbind, M_bind, bind, import_file, mbind, M_bind, bind, loadFromFile.
    rewrite Hopen. unfold mbind, M_bind, bind. rewrite Hfirst.
    destruct (QList.isEmpty (errors parsed)); simpl;
      unfold construct; rewrite Hthrow; simpl;
      (split; [done|]; split; [done|]);
      rewrite ?elem_of_cons, ?elem_of_nil;
      (split; [tauto|]);
      intros Hin; decompose [or] Hin; try done; simplify_eq.
Qed.

End Claim2Fallback.

Lemma bootstrap_lone_file_not_importable_witness :
  (fst (bootstrap Fixture.blank []) = Violation /\
   s_servers (snd (bootstrap Fixture.blank [])) = []) /\
  (fst (bootstrap Lone.unbuildable []) = Returned tt /\
   s_servers (snd (bootstrap Lone.unbuildable [])) = []).
Proof.
  split.
  - destruct (bootstrap_lone_file_not_importable Fixture.blank "/share/empty.cfg"
                (mkParsedFile [] []) eq_refl eq_refl) as [Hblank _].
    destruct (Hblank eq_refl) as (_ & Hr & Hs & _). split; [exact Hr|exact Hs].
  - destruct (bootstrap_lone_file_not_importable Lone.unbuildable "/share/bad.cfg"
                (mkParsedFile [] [Some (Fixture.Block ∅)]) eq_refl eq_refl)
      as [_ Hthrow].
    destruct (Hthrow (Fixture.Block ∅) "Server name not found" eq_refl eq_refl)
      as (_ & Hr & Hs & _).
    split; [exact Hr|exact Hs].
Defined.

Section Claim3.
Context {QVariant YamlNode : Type}.
Variable host : Host QVariant YamlNode.

(** C3 (what the code does).  When constructing a configuration from the
    first stored record throws, the exception leaves the [try] block past
    both fallbacks: bootstrap returns after the warning with [active]
    empty. *)
Theorem bootstrap_first_record_throws (record : QVariant) (rest : list QVariant)
    (ex : Exception) :
  fromQVariant host record = inl ex ->
  fst (bootstrap host (record :: rest)) = Returned tt /\
  s_servers (snd (bootstrap host (record :: rest))) = [] /\
  output (snd (bootstrap host (record :: rest))) = [MsgBoxWarning (warning_text ex)].
Proof.
  intros Hthrow. rewrite bootstrap_stored by done. simpl. by rewrite Hthrow.
Qed.

End Claim3.

Lemma bootstrap_first_record_throws_witness :
  s_servers (snd (bootstrap Fixture.plain [Fixture.Corrupt])) = [].
Proof.
  apply (bootstrap_first_record_throws Fixture.plain Fixture.Corrupt []
           "Server type not found").
  reflexivity.
Defined.

Section Claim4.
Context {QVariant YamlNode : Type}.
Variable host : Host QVariant YamlNode.

Lemma allocate_names next configs :
  map name (allocate next configs) = map display configs.
Proof.
  revert next. induction configs as [|c cs IH]; intros next; simpl; [done|].
  by rewrite IH.
Qed.

(** Bootstrap keeps the names apart as soon as the stored records do. *)
Lemma bootstrap_unique_names (stored : list QVariant) :
  NoDup (map display (decode_all host stored)) ->
  unique_names (snd (bootstrap host stored)).
Proof.
  intros Hstored. destruct stored as [|record records].
  - rewrite bootstrap_empty_store.
    assert (Hphase : unique_names (snd (directory_phase host))).
    { unfold directory_phase. destruct (serverDirectory host) as [listing|].
      - destruct (forEach (import_file host) listing directory_start)
          as [r st1] eqn:Hloop. simpl.
        eapply (import_loop_preserve host unique_names); [| |..|exact Hloop].
        + done.
        + intros st server Hu Ha Hn. apply transition_unique_names; [done|].
          by apply added.
        + apply NoDup_nil_2.
      - apply NoDup_nil_2. }
    destruct (directory_phase host) as [[[]|ex| |] st1]; simpl in *; try done.
    rewrite load_default_outcome. simpl.
    destruct (s_servers st1) eqn:Hl; simpl; [|done].
    unfold unique_names, availableServers. simpl. apply NoDup_singleton.
  - rewrite bootstrap_stored by done. unfold unique_names, availableServers. simpl.
    by rewrite allocate_names.
Qed.

(** C4 (amended).  Provided the stored records carry pairwise-distinct
    display names, no two entries of [active] share a name immediately after
    bootstrap and after every returning sequence of mutating calls. *)
Theorem names_unique_between_calls (stored : list QVariant) (cs : list Call)
    (st' : State QVariant) :
  NoDup (map display (decode_all host stored)) ->
  calls host cs (snd (bootstrap host stored)) = (Returned tt, st') ->
  unique_names st'.
Proof.
  intros Hstored Hrun.
  eapply (calls_preserve host unique_names); [|by apply bootstrap_unique_names|exact Hrun].
  intros st a r n. apply transition_unique_names.
Qed.

End Claim4.

Lemma names_unique_between_calls_witness :
  unique_names
    (snd (calls Fixture.plain
            [AddServer (Fixture.named "alpha"); MoveUp "alpha"; Remove "beta"]
            (snd (bootstrap Fixture.plain
                    [Fixture.Stored (Fixture.named "alpha");
                     Fixture.Stored (Fixture.named "beta")])))).
Proof.
  apply (names_unique_between_calls Fixture.plain
           [Fixture.Stored (Fixture.named "alpha"); Fixture.Stored (Fixture.named "beta")]
           [AddServer (Fixture.named "alpha"); MoveUp "alpha"; Remove "beta"]).
  - vm_compute. apply NoDup_cons. split.
    + rewrite list_elem_of_singleton. discriminate.
    + apply NoDup_singleton.
  - vm_compute. reflexivity.
Defined.

(** C4, as stated, fails: two stored records with the same display name are
    both appended as they are. *)
Lemma duplicate_records_loaded :
  availableServers
    (snd (bootstrap Fixture.plain
            [Fixture.Stored (Fixture.named "alpha");
             Fixture.Stored (Fixture.named "alpha")]))
    = ["alpha"; "alpha"] /\
  ~ unique_names
      (snd (bootstrap Fixture.plain
              [Fixture.Stored (Fixture.named "alpha");
               Fixture.Stored (Fixture.named "alpha")])).
Proof.
  split; [by vm_compute|].
  unfold unique_names. vm_compute. intros Hu.
  apply NoDup_cons in Hu. destruct Hu as [Hin _]. apply Hin. left.
Qed.

Section Claim5.
Context {QVariant YamlNode : Type}.
Variable host : Host QVariant YamlNode.

Lemma decode_serialized (l : list Server) :
  (forall config, fromQVariant host (toQVariant host config) = inr config) ->
  decode_all host (serialized host l) = map configuration l /\
  decode_error host (serialized host l) = None.
Proof.
  intros Hround. induction l as [|s l [IH1 IH2]]; simpl; [done|].
  by rewrite Hround, IH1, IH2.
Qed.

(** C5 (amended).  For every non-empty [active] sequence, when each record
    round-trips, saveToPreferences followed by a fresh bootstrap from the
    stored value returns and reproduces the same ordered sequence of
    configurations, hence the same names. *)
Theorem persist_reload_roundtrip (st : State QVariant) :
  (forall config, fromQVariant host (toQVariant host config) = inr config) ->
  s_servers st <> [] ->
  let reloaded :=
    bootstrap host (ServerConfigurationList (snd (saveToPreferences host st))) in
  fst reloaded = Returned tt /\
  reloads_same host st /\
  availableServers (snd reloaded) = availableServers st /\
  output (snd reloaded) = [].
Proof.
  intros Hround Hne. unfold reloads_same. simpl.
  destruct (decode_serialized (s_servers st) Hround) as [Hall Herr].
  fold (serialized host (s_servers st)).
  rewrite bootstrap_stored.
  - simpl. rewrite Hall, Herr. repeat split.
    + apply allocate_configuration.
    + unfold availableServers. simpl. rewrite allocate_names.
      unfold display, name. by rewrite map_map.
  - unfold serialized. by destruct (s_servers st).
Qed.

End Claim5.

Lemma persist_reload_roundtrip_witness :
  reloads_same Fixture.plain
    (snd (calls Fixture.plain
            [AddServer (Fixture.named "alpha"); AddServer (Fixture.named "beta")]
            (process_start []))).
Proof.
  apply (persist_reload_roundtrip Fixture.plain).
  - intros config. reflexivity.
  - vm_compute. discriminate.
Defined.

(** C5, as stated, fails for the empty sequence although every record
    round-trips: the stored list is empty, so the fresh bootstrap falls
    through to the hardcoded default. *)
Lemma empty_registry_reloads_default :
  (forall config,
      fromQVariant Fixture.plain (toQVariant Fixture.plain config) = inr config) /\
  availableServers
    (snd (bootstrap Fixture.plain
            (ServerConfigurationList
               (snd (saveToPreferences Fixture.plain (process_start []))))))
    = ["Q-Chem"] /\
  ~ reloads_same Fixture.plain (process_start []).
Proof.
  split; [done|]. split; [by vm_compute|].
  unfold reloads_same. vm_compute. discriminate.
Qed.

Section Claim6.
Context {QVariant YamlNode : Type}.
Variable host : Host QVariant YamlNode.
Implicit Types (st : State QVariant) (s : Server).

(** Every state reached by bootstrap and returning calls has a well-formed
    heap. *)
Lemma allocate_addr next configs :
  map addr (allocate next configs) = seq next (length configs).
Proof.
  revert next. induction configs as [|c cs IH]; intros next; simpl; [done|].
  by rewrite IH.
Qed.

Lemma bootstrap_heap_ok (stored : list QVariant) :
  heap_ok (snd (bootstrap host stored)).
Proof.
  destruct stored as [|record records].
  - rewrite bootstrap_empty_store.
    assert (Hphase : heap_ok (snd (directory_phase host))).
    { unfold directory_phase. destruct (serverDirectory host) as [listing|].
      - destruct (forEach (import_file host) listing directory_start)
          as [r st1] eqn:Hloop. simpl.
        eapply (import_loop_preserve host heap_ok); [| |..|exact Hloop].
        + done.
        + intros st server Hh Ha Hn. apply transition_heap_ok; [done|].
          by apply added.
        + split; [apply NoDup_nil_2|]. intros s Hs. by apply elem_of_nil in Hs.
      - split; [apply NoDup_nil_2|]. intros s Hs. by apply elem_of_nil in Hs. }
    destruct (directory_phase host) as [[[]|ex| |] st1]; simpl in *; try done.
    rewrite load_default_outcome. simpl.
    destruct (s_servers st1) eqn:Hl; simpl; [|done].
    destruct Hphase as [Hnd Hlt]. rewrite Hl in Hnd, Hlt. simpl in Hnd, Hlt.
    split; simpl.
    + apply NoDup_cons. split; [|done]. intros Hin.
      apply list_elem_of_fmap in Hin. destruct Hin as (s & Hs & Hin).
      apply Hlt in Hin. lia.
    + intros s Hs. apply elem_of_cons in Hs. destruct Hs as [->|Hs]; [simpl; lia|].
      apply Hlt in Hs. lia.
  - rewrite bootstrap_stored by done.
    generalize (decode_all host (record :: records)). intros configs.
    split; simpl; rewrite app_nil_r.
    + rewrite allocate_addr. apply NoDup_seq.
    + intros s Hs. assert (Hin : addr s ∈ map addr (allocate 0 configs)).
      { apply list_elem_of_fmap. by exists s. }
      rewrite allocate_addr in Hin. apply elem_of_seq in Hin. lia.
Qed.

Lemma reachable_heap_ok (stored : list QVariant) (cs : list Call) st :
  calls host cs (snd (bootstrap host stored)) = (Returned tt, st) -> heap_ok st.
Proof.
  intros Hrun.
  eapply (calls_preserve host heap_ok); [|apply bootstrap_heap_ok|exact Hrun].
  intros st0 a r n. apply transition_heap_ok.
Qed.

(** The addresses around an entry of [active]. *)
Lemma heap_ok_split st l1 s l2 :
  heap_ok st -> s_servers st = l1 ++ s :: l2 ->
  (addr s ∉ map addr l1) /\ (addr s ∉ map addr (l1 ++ l2)) /\
  (addr s ∉ map addr (s_deletedServers st)).
Proof.
  intros [Hnd _] Hl. rewrite Hl, <- app_assoc, !map_app in Hnd. simpl in Hnd.
  apply NoDup_app in Hnd. destruct Hnd as (_ & Hdisj & Hnd).
  apply NoDup_cons in Hnd. destruct Hnd as [Hrest _].
  rewrite elem_of_app in Hrest.
  assert (H1 : addr s ∉ map addr l1).
  { intros Hin. apply (Hdisj _ Hin). left. }
  split; [done|]. split.
  - rewrite map_app, elem_of_app. intros [?|?]; [done|]. apply Hrest. by left.
  - intros Hin. apply Hrest. by right.
Qed.

(** A server in the deferred-destruction list is not in [active]. *)
Lemma retired_not_active st s :
  heap_ok st -> s ∈ s_deletedServers st ->
  (addr s ∉ map addr (s_servers st)) /\ forall m, find st m <> Some s.
Proof.
  intros [Hnd _] Hs.
  assert (Ha : addr s ∉ map addr (s_servers st)).
  { rewrite map_app in Hnd. apply NoDup_app in Hnd. destruct Hnd as (_ & Hdisj & _).
    intros Hin. apply (Hdisj _ Hin). apply list_elem_of_fmap. by exists s. }
  split; [done|]. intros m Hm. apply find_Some in Hm.
  destruct Hm as (l1 & l2 & Hl & _). apply Ha. rewrite Hl, map_app. simpl.
  apply elem_of_app. right. left.
Qed.

(** C6 (amended).  For every name present in [active], [remove] returns,
    takes the first entry carrying the name out of [active] and appends that
    server to the deferred-destruction list; that server object is from then
    on never again an entry of [active], hence never given by [find] nor at a
    position [indexOf] gives, after every further returning sequence of
    calls.  [remove] followed by [find] on the name gives the null pointer,
    [indexOf] gives -1 and [availableServers] lacks the name, exactly when no
    other entry of [active] carries the name, as is the case whenever the
    names are pairwise distinct.  [remove] of an absent name changes neither
    list. *)
Theorem remove_then_find st :
  heap_ok st ->
  (forall n s,
      find st n = Some s ->
      let st1 := snd (remove host n st) in
      fst (remove host n st) = Returned tt /\
      s_deletedServers st1 = s_deletedServers st ++ [s] /\
      (addr s ∉ map addr (s_servers st1)) /\
      (forall m, find st1 m <> Some s) /\
      (find st1 n = None <->
         forall s', s' ∈ s_servers st -> name s' = n -> s' = s) /\
      (find st1 n = None <-> indexOf st1 n = -1) /\
      (find st1 n = None <-> n ∉ availableServers st1) /\
      (unique_names st -> find st1 n = None) /\
      forall cs st2,
        calls host cs st1 = (Returned tt, st2) ->
        s ∈ s_deletedServers st2 /\
        (addr s ∉ map addr (s_servers st2)) /\
        forall m, find st2 m <> Some s) /\
  (forall n,
      (n ∉ availableServers st) ->
      fst (remove host n st) = Returned tt /\
      s_servers (snd (remove host n st)) = s_servers st /\
      s_deletedServers (snd (remove host n st)) = s_deletedServers st).
Proof.
  intros Hheap. split.
  - intros n s Hfind. apply find_Some in Hfind.
    destruct Hfind as (l1 & l2 & Hl & <- & Hl1).
    destruct (heap_ok_split st l1 s l2 Hheap Hl) as (_ & Hrest & _).
    rewrite (remove_present host st l1 s l2) by done. simpl.
    set (st1 := saved host (l1 ++ l2) (s_deletedServers st ++ [s]) (heap_next st) st).
    assert (Hheap1 : heap_ok st1).
    { apply transition_heap_ok; [done|]. by apply retired. }
    assert (Hin1 : s ∈ s_deletedServers st1).
    { simpl. apply elem_of_app. right. left. }
    assert (Hnone : find st1 (name s) = None <-> name s ∉ map name l2).
    { rewrite find_None. unfold availableServers. simpl.
      rewrite map_app, elem_of_app. tauto. }
    assert (Honly : name s ∉ map name l2 <->
                    forall s', s' ∈ s_servers st -> name s' = name s -> s' = s).
    { split.
      - intros Hl2 s' Hs' Hname. rewrite Hl in Hs'. apply elem_of_app in Hs'.
        destruct Hs' as [Hs'|Hs'].
        + destruct Hl1. rewrite <- Hname. apply list_elem_of_fmap. by exists s'.
        + apply elem_of_cons in Hs'. destruct Hs' as [->|Hs']; [done|].
          destruct Hl2. rewrite <- Hname. apply list_elem_of_fmap. by exists s'.
      - intros Hone Hin. apply list_elem_of_fmap in Hin.
        destruct Hin as (s' & Hname & Hs').
        assert (s' = s) as ->.
        { apply Hone; [|done]. rewrite Hl. apply elem_of_app. right. by right. }
        apply Hrest. rewrite map_app. apply elem_of_app. right.
        apply list_elem_of_fmap. by exists s. }
    split; [done|]. split; [done|].
    split; [by apply (retired_not_active st1 s)|].
    split; [by apply (retired_not_active st1 s)|].
    split; [by rewrite Hnone|].
    split.
    { rewrite find_None. apply indexOf_absent. }
    split; [apply find_None|].
    split.
    { intros Hu. apply Hnone. intros Hin.
      unfold unique_names, availableServers in Hu. rewrite Hl, map_app in Hu.
      apply NoDup_app in Hu. destruct Hu as (_ & _ & Hu). simpl in Hu.
      apply NoDup_cons in Hu. by destruct Hu. }
    intros cs st2 Hrun.
    assert (Hkept : heap_ok st2 /\ s ∈ s_deletedServers st2).
    { eapply (calls_preserve host (fun st => heap_ok st /\ s ∈ s_deletedServers st));
        [| |exact Hrun].
      - intros st0 a r nx [Hh Hs] Ht. split; [by apply transition_heap_ok|].
        destruct Ht; simpl; try done. apply elem_of_app. by left.
      - done. }
    destruct Hkept as [Hh Hs]. split; [done|]. by apply retired_not_active.
  - intros n Hn. by rewrite remove_absent.
Qed.

End Claim6.

Section Claim7.
Context {QVariant YamlNode : Type}.
Variable host : Host QVariant YamlNode.
Implicit Types (st : State QVariant) (s : Server).

Lemma unique_before st l1 s l2 :
  unique_names st -> s_servers st = l1 ++ s :: l2 -> name s ∉ map name l1.
Proof.
  unfold unique_names, availableServers. intros Hu Hl.
  rewrite Hl, map_app in Hu. simpl in Hu. apply NoDup_app in Hu.
  destruct Hu as (_ & Hdisj & _). intros Hin. apply (Hdisj _ Hin). left.
Qed.

(** C7 (amended).  For every active sequence, [moveUp] on the name of the
    first entry returns and leaves the order as it is.  For an entry whose
    name no earlier entry carries, which is every entry when the names are
    pairwise distinct, [moveDown] on the name of the last entry returns and
    leaves the order as it is, [moveUp] on the name of any entry but the
    first exchanges it with its predecessor and [moveDown] on the name of any
    entry but the last exchanges it with its successor, while the entries
    before and after the pair stay where they are.  (A name that an earlier
    entry carries denotes that earlier entry.) *)
Theorem move_swaps_neighbours st :
  (forall s l,
      s_servers st = s :: l ->
      fst (moveUp host (name s) st) = Returned tt /\
      s_servers (snd (moveUp host (name s) st)) = s :: l) /\
  (forall l s,
      s_servers st = l ++ [s] -> (name s ∉ map name l) ->
      fst (moveDown host (name s) st) = Returned tt /\
      s_servers (snd (moveDown host (name s) st)) = l ++ [s]) /\
  (forall l1 p s l2,
      s_servers st = l1 ++ p :: s :: l2 -> (name s ∉ map name (l1 ++ [p])) ->
      fst (moveUp host (name s) st) = Returned tt /\
      s_servers (snd (moveUp host (name s) st)) = l1 ++ s :: p :: l2) /\
  (forall l1 s q l2,
      s_servers st = l1 ++ s :: q :: l2 -> (name s ∉ map name l1) ->
      fst (moveDown host (name s) st) = Returned tt /\
      s_servers (snd (moveDown host (name s) st)) = l1 ++ q :: s :: l2) /\
  (unique_names st ->
   forall l1 s l2, s_servers st = l1 ++ s :: l2 -> name s ∉ map name l1).
Proof.
  split; [|split; [|split; [|split]]].
  - intros s l Hl. by rewrite (moveUp_first host st s l).
  - intros l s Hl Hs. by rewrite (moveDown_last host st l s).
  - intros l1 p s l2 Hl Hs. by rewrite (moveUp_inner host st l1 p s l2).
  - intros l1 s q l2 Hl Hs. by rewrite (moveDown_inner host st l1 s q l2).
  - intros Hu l1 s l2 Hl. by eapply unique_before.
Qed.

End Claim7.

Lemma fixture_three_unique : unique_names Fixture.three.
Proof.
  unfold unique_names. vm_compute.
  repeat (apply NoDup_cons; split;
          [rewrite ?elem_of_cons, elem_of_nil; intros Hin; decompose [or] Hin;
           discriminate || done|]).
  apply NoDup_nil_2.
Defined.

Lemma fixture_three_heap : heap_ok Fixture.three.
Proof.
  split.
  - vm_compute.
    repeat (apply NoDup_cons; split;
            [rewrite ?elem_of_cons, elem_of_nil; intros Hin; decompose [or] Hin;
             discriminate || done|]).
    apply NoDup_nil_2.
  - intros s Hs. simpl in Hs.
    repeat (apply elem_of_cons in Hs; destruct Hs as [->|Hs]; [simpl; lia|]).
    by apply elem_of_nil in Hs.
Defined.

Lemma remove_then_find_witness :
  find (snd (remove Fixture.plain "beta" Fixture.three)) "beta" = None /\
  s_deletedServers (snd (remove Fixture.plain "beta" Fixture.three)) = [Fixture.beta].
Proof.
  destruct (remove_then_find Fixture.plain Fixture.three fixture_three_heap)
    as [Hpresent _].
  destruct (Hpresent "beta" Fixture.beta eq_refl)
    as (_ & Hdeleted & _ & _ & _ & _ & _ & Hfind & _).
  split; [exact (Hfind fixture_three_unique)|exact Hdeleted].
Defined.

(** C6, as stated, fails: after bootstrap from two stored records named
    "alpha", [remove] of "alpha" retires the first of them and [find] of
    "alpha" gives the second. *)
Lemma remove_duplicate_name_still_found :
  let st := snd (bootstrap Fixture.plain
                   [Fixture.Stored (Fixture.named "alpha");
                    Fixture.Stored (Fixture.named "alpha")]) in
  find st "alpha" = Some (mkServer 0 (Fixture.named "alpha")) /\
  fst (remove Fixture.plain "alpha" st) = Returned tt /\
  find (snd (remove Fixture.plain "alpha" st)) "alpha"
    = Some (mkServer 1 (Fixture.named "alpha")) /\
  find (snd (remove Fixture.plain "alpha" st)) "alpha" <> None /\
  indexOf (snd (remove Fixture.plain "alpha" st)) "alpha" = 0 /\
  availableServers (snd (remove Fixture.plain "alpha" st)) = ["alpha"].
Proof.
  simpl. repeat split; try by vm_compute.
Qed.

Lemma move_swaps_neighbours_witness :
  s_servers (snd (moveDown Fixture.plain "alpha" Fixture.three))
    = [Fixture.beta; Fixture.alpha; Fixture.gamma] /\
  s_servers (snd (moveUp Fixture.plain "alpha" Fixture.three))
    = [Fixture.alpha; Fixture.beta; Fixture.gamma] /\
  s_servers (snd (moveDown Fixture.plain "gamma" Fixture.three))
    = [Fixture.alpha; Fixture.beta; Fixture.gamma].
Proof.
  destruct (move_swaps_neighbours Fixture.plain Fixture.three)
    as (Hfirst & Hlast & _ & Hdown & Hunique).
  split; [|split].
  - apply (Hdown [] Fixture.alpha Fixture.beta [Fixture.gamma] eq_refl).
    apply (Hunique fixture_three_unique [] Fixture.alpha [Fixture.beta; Fixture.gamma]).
    reflexivity.
  - apply (Hfirst Fixture.alpha [Fixture.beta; Fixture.gamma] eq_refl).
  - apply (Hlast [Fixture.alpha; Fixture.beta] Fixture.gamma eq_refl).
    apply (Hunique fixture_three_unique [Fixture.alpha; Fixture.beta] Fixture.gamma []).
    reflexivity.
Defined.

(** C7, as stated, fails: after bootstrap from stored records named "alpha",
    "beta", "alpha", [moveDown] on the name of the last entry exchanges the
    first two entries. *)
Lemma moveDown_last_duplicate_name :
  let st := snd (bootstrap Fixture.plain
                   [Fixture.Stored (Fixture.named "alpha");
                    Fixture.Stored (Fixture.named "beta");
                    Fixture.Stored (Fixture.named "alpha")]) in
  let last := mkServer 2 (Fixture.named "alpha") in
  s_servers st
    = [mkServer 0 (Fixture.named "alpha"); mkServer 1 (Fixture.named "beta")] ++ [last] /\
  fst (moveDown Fixture.plain (name last) st) = Returned tt /\
  s_servers (snd (moveDown Fixture.plain (name last) st))
    = [mkServer 1 (Fixture.named "beta"); mkServer 0 (Fixture.named "alpha"); last] /\
  s_servers (snd (moveDown Fixture.plain (name last) st)) <> s_servers st.
Proof.
  simpl. repeat split; try by vm_compute.
Qed.

Section Claim8.
Context {QVariant YamlNode : Type}.
Variable host : Host QVariant YamlNode.
Implicit Types (st : State QVariant).

(** A file that cannot be opened: the condition is logged and [false] is
    returned; nothing is thrown. *)
Lemma loadFromFile_unreadable path config st :
  parseFile host path = None ->
  loadFromFile host path config st =
    (Returned (false, config),
     with_output [LogError ("Server configuraiton file does not exist" +:+ path)] st).
Proof. intros Hopen. unfold loadFromFile. by rewrite Hopen. Qed.

(** Success is reported only for a configuration constructed from the first
    block of the document. *)
Lemma loadFromFile_success path config st c :
  fst (loadFromFile host path config st) = Returned (true, c) ->
  exists parsed node,
    parseFile host path = Some parsed /\
    QList.first (yamlNodes parsed) = Some (Some node) /\
    fromYamlNode host node = inr c.
Proof.
  unfold loadFromFile.
  destruct (parseFile host path) as [parsed|] eqn:Hopen; [|done].
  unfold mbind, M_bind, bind.
  destruct (QList.isEmpty (errors parsed)); simpl.
  all: destruct (QList.first (yamlNodes parsed)) as [[node|]|] eqn:Hfirst; simpl.
  all: try (intros Hret; discriminate Hret).
  all: unfold construct; destruct (fromYamlNode host node) as [ex|c'] eqn:Hc; simpl.
  all: try (intros Hret; discriminate Hret).
  all: intros Hret; simplify_eq; by exists parsed, node.
Qed.

(** C8 (what the code does).  For a file that opens and whose document
    holds no configuration block, [findData] returns the empty list and
    [yaml.first()] is called on it: the precondition of [QList::first] is
    violated, and no failure is reported. *)
Theorem loadFromFile_without_block path config st parsed :
  parseFile host path = Some parsed ->
  yamlNodes parsed = [] ->
  fst (loadFromFile host path config st) = Violation.
Proof.
  intros Hopen Hnone. unfold loadFromFile. rewrite Hopen, Hnone.
  unfold mbind, M_bind, bind. by destruct (QList.isEmpty (errors parsed)).
Qed.

End Claim8.

Lemma loadFromFile_without_block_witness :
  fst (loadFromFile Fixture.blank "/share/empty.cfg"
         (defaultConfiguration Fixture.blank) (process_start []))
  = Violation.
Proof.
  apply (loadFromFile_without_block Fixture.blank "/share/empty.cfg" _ _
           (mkParsedFile [] [])); reflexivity.
Defined.

Section Claim9.
Context {QVariant YamlNode : Type}.
Variable host : Host QVariant YamlNode.
Implicit Types (st : State QVariant).

(** C9 (what the code does).  Every call of a mutating operation that
    returns leaves the stored list equal to the serialization of [active],
    in order, also when nothing else changed.  No call throws or loops, and
    the only calls that do not return are the [moveDown] calls for a name
    that is absent from a non-empty [active], as on the registry with the
    one server "alpha". *)
Theorem call_persists_unless_violation (c : Call) st :
  match call host c st with
  | (Returned _, st') => persisted host st'
  | (Violation, _) =>
      exists n, c = MoveDown n /\ (n ∉ availableServers st) /\ s_servers st <> []
  | _ => False
  end /\
  fst (call Fixture.plain (MoveDown "missing") Fixture.one) = Violation.
Proof.
  split; [|reflexivity].
  destruct (call_outcome host c st)
    as [(a & r & n & Heq & Ht)|(n & Hc & Hn & Hl & Hv)].
  - rewrite Heq. reflexivity.
  - destruct (call host c st) as [[] st']; simpl in Hv; simplify_eq. by exists n.
Qed.

End Claim9.

Section Claim10.
Context {QVariant YamlNode : Type}.
Variable host : Host QVariant YamlNode.
Implicit Types (st : State QVariant).

(** C10 (what the code does).  For a name that is absent from a non-empty
    [active], [indexOf] gives -1, the guard [index < size - 1] holds, and
    [moveDown] calls swap(-1, 0), which is out of range. *)
Theorem moveDown_absent_out_of_range (n : string) st :
  (n ∉ availableServers st) -> s_servers st <> [] ->
  indexOf st n = -1 /\
  (indexOf st n <? QList.size (s_servers st) - 1) = true /\
  QList.swap (s_servers st) (indexOf st n) (indexOf st n + 1) = None /\
  fst (moveDown host n st) = Violation.
Proof.
  intros Hn Hl. assert (Hi := proj1 (indexOf_absent st n) Hn).
  rewrite Hi. split; [done|]. split.
  - apply Z.ltb_lt. unfold QList.size. destruct (s_servers st); [done|]. simpl. lia.
  - split; [by apply swap_negative|]. by apply moveDown_absent.
Qed.

End Claim10.

Lemma moveDown_absent_out_of_range_witness :
  QList.swap (s_servers Fixture.one) (indexOf Fixture.one "missing")
    (indexOf Fixture.one "missing" + 1) = None /\
  fst (moveDown Fixture.plain "missing" Fixture.one) = Violation.
Proof.
  destruct (moveDown_absent_out_of_range Fixture.plain "missing" Fixture.one)
    as (_ & _ & Hswap & Hdown).
  - change ("missing" ∉ ["alpha"]). rewrite list_elem_of_singleton. discriminate.
  - discriminate.
  - split; [exact Hswap|exact Hdown].
Defined.

(** * Further properties of the registry *)

Section LookupAndAdd.
Context {QVariant YamlNode : Type}.
Variable host : Host QVariant YamlNode.
Implicit Types (st : State QVariant) (s : Server).

(** X1.  [indexOf] gives -1 exactly for the names no entry carries;
    otherwise it gives the position, within bounds, of the first entry that
    carries the name, and [find] gives that entry. *)
Theorem indexOf_first_match st (n : string) :
  (indexOf st n = -1 /\ find st n = None /\ (n ∉ availableServers st)) \/
  (exists (i : nat) s,
      indexOf st n = Z.of_nat i /\
      s_servers st !! i = Some s /\
      name s = n /\
      find st n = Some s /\
      forall j s', (j < i)%nat -> s_servers st !! j = Some s' -> name s' <> n).
Proof.
  destruct (decide (n ∈ availableServers st)) as [Hn|Hn].
  - right. apply first_occurrence in Hn.
    destruct Hn as (l1 & s & l2 & Hl & <- & Hl1).
    destruct (find_split st l1 s l2 Hl Hl1) as [Hi Hf].
    exists (length l1), s. split; [done|]. split.
    { rewrite Hl. by apply list_lookup_middle. }
    split; [done|]. split; [done|].
    intros j s' Hj Hs' Heq. apply Hl1. rewrite <- Heq.
    rewrite Hl, lookup_app_l in Hs' by done.
    apply list_elem_of_fmap. exists s'. split; [done|].
    by eapply list_elem_of_lookup_2.
  - left. split; [by apply indexOf_absent|]. split; [by apply find_None|done].
Qed.

(** Lookups of the names other than the appended entry's do not change. *)
Lemma lookup_after_append st st' server (n : string) :
  s_servers st' = s_servers st ++ [server] -> n <> name server ->
  find st' n = find st n /\ indexOf st' n = indexOf st n.
Proof.
  intros Hl Hn. destruct (decide (n ∈ availableServers st)) as [Hin|Hin].
  - apply first_occurrence in Hin.
    destruct Hin as (l1 & s & l2 & Hl0 & <- & Hl1).
    destruct (find_split st l1 s l2 Hl0 Hl1) as [Hi Hf].
    destruct (find_split st' l1 s (l2 ++ [server])) as [Hi' Hf']; [|done|].
    { by rewrite Hl, Hl0, <- app_assoc. }
    by rewrite Hi, Hf, Hi', Hf'.
  - assert (Hin' : n ∉ availableServers st').
    { unfold availableServers in *. rewrite Hl, map_app. simpl.
      rewrite elem_of_app, list_elem_of_singleton. by intros [?|?]. }
    split.
    + apply find_None in Hin, Hin'. by rewrite Hin, Hin'.
    + apply indexOf_absent in Hin, Hin'. by rewrite Hin, Hin'.
Qed.

(** X2.  [addServer] followed by a lookup: the call returns, the new server
    is the last entry, [find] and [indexOf] on its name give that server and
    the last position, and the lookups of every other name are as before. *)
Theorem addServer_then_find (config : ServerConfiguration) st :
  exists server config' st',
    addServer host config st = (Returned (server, config'), st') /\
    s_servers st' = s_servers st ++ [server] /\
    find st' (name server) = Some server /\
    indexOf st' (name server) = QList.size (s_servers st) /\
    forall n, n <> name server ->
      find st' n = find st n /\ indexOf st' n = indexOf st n.
Proof.
  destruct (addServer_spec host config st) as (N & Heq & _ & Habs & _).
  simpl in Heq. eexists _, _, _. split; [exact Heq|].
  rewrite name_setValue in *. split; [done|].
  set (server := mkServer (heap_next st) _) in *.
  set (st' := saved host _ _ _ st) in *.
  assert (Hname : name server = suffixed (Config.value config ServerName) N)
    by apply name_setValue.
  destruct (find_split st' (s_servers st) server []) as [Hi Hf]; [done|by rewrite Hname|].
  rewrite Hname in Hi, Hf. split; [done|]. split; [done|].
  intros n Hn. apply (lookup_after_append st st' server); [done|by rewrite Hname].
Qed.

(** X3.  [addServer] followed by [remove] of the name it chose: both calls
    return, [active] is what it was before the two calls, the new server is
    in the deferred-destruction list and the stored list is the
    serialization of [active]. *)
Theorem addServer_then_remove (config : ServerConfiguration) st :
  exists server config' st1 st2,
    addServer host config st = (Returned (server, config'), st1) /\
    remove host (name server) st1 = (Returned tt, st2) /\
    s_servers st2 = s_servers st /\
    s_deletedServers st2 = s_deletedServers st ++ [server] /\
    persisted host st2.
Proof.
  destruct (addServer_spec host config st) as (N & Heq & _ & Habs & _).
  simpl in Heq. eexists _, _, _, _. split; [exact Heq|].
  set (server := mkServer (heap_next st) _) in *.
  set (st1 := saved host _ _ _ st) in *.
  assert (Hname : name server = suffixed (Config.value config ServerName) N)
    by apply name_setValue.
  rewrite (remove_present host st1 (s_servers st) server []);
    [|done|by rewrite Hname].
  split; [reflexivity|]. simpl. by rewrite app_nil_r.
Qed.

(** X4.  What [addServer] writes back: the returned server holds exactly
    the configuration written back to the caller, which differs from the
    caller's configuration in the name setting at most; the name is the
    display name followed by a suffix number that never exceeds the number
    of entries, and no suffix when the display name is free, in which case a
    configuration that carries its name explicitly is not changed at all. *)
Theorem addServer_write_back (config : ServerConfiguration) st :
  exists server config' st' (N : nat),
    addServer host config st = (Returned (server, config'), st') /\
    configuration server = config' /\
    config' !! ServerName = Some (suffixed (display config) N) /\
    (forall field, field <> ServerName -> config' !! field = config !! field) /\
    (N <= length (s_servers st))%nat /\
    ((display config ∉ availableServers st) -> N = 0%nat) /\
    ((display config ∉ availableServers st) ->
     config !! ServerName = Some (display config) -> config' = config).
Proof.
  destruct (addServer_spec host config st) as (N & Heq & HN & Habs & Htaken).
  simpl in Heq. eexists _, _, _, N. split; [exact Heq|]. split; [done|].
  assert (Hfree : (display config ∉ availableServers st) -> N = 0%nat).
  { intros Hd. destruct N as [|N]; [done|]. destruct Hd. apply (Htaken 0%nat). lia. }
  unfold Config.setValue. split; [by rewrite lookup_insert_eq|].
  split; [intros field Hf; by rewrite lookup_insert_ne|].
  split; [done|]. split; [done|].
  intros Hd Hc. rewrite (Hfree Hd). simpl. by apply insert_id.
Qed.

End LookupAndAdd.

Section RemoveAndMove.
Context {QVariant YamlNode : Type}.
Variable host : Host QVariant YamlNode.
Implicit Types (st : State QVariant) (s : Server).

(** X5.  With distinct object addresses, removing by reference the server
    that [find] gives for a name is the same as removing by that name. *)
Theorem remove_by_reference_agrees st (n : string) s :
  heap_ok st -> find st n = Some s ->
  remove_server host s st = remove host n st.
Proof.
  intros Hheap Hfind. apply find_Some in Hfind.
  destruct Hfind as (l1 & l2 & Hl & <- & Hl1).
  destruct (heap_ok_split st l1 s l2 Hheap Hl) as (Ha & _ & _).
  rewrite (remove_present host st l1 s l2) by done.
  by rewrite (remove_server_present host st l1 s l2 s).
Qed.

(** X6.  A server is retired once: removing by reference a server of
    [active] moves that very object to the deferred-destruction list, and
    removing it by reference again returns and changes neither list. *)
Theorem remove_by_reference_twice st s :
  heap_ok st -> s ∈ s_servers st ->
  exists st1 st2,
    remove_server host s st = (Returned tt, st1) /\
    remove_server host s st1 = (Returned tt, st2) /\
    (s ∉ s_servers st1) /\
    length (s_servers st1) = pred (length (s_servers st)) /\
    s_deletedServers st1 = s_deletedServers st ++ [s] /\
    s_servers st2 = s_servers st1 /\
    s_deletedServers st2 = s_deletedServers st1.
Proof.
  intros Hheap Hs. apply list_elem_of_split in Hs. destruct Hs as (l1 & l2 & Hl).
  destruct (heap_ok_split st l1 s l2 Hheap Hl) as (Ha & Hrest & _).
  rewrite (remove_server_present host st l1 s l2 s) by done.
  eexists _, _. split; [reflexivity|].
  rewrite remove_server_absent by done. split; [reflexivity|]. simpl.
  split.
  { intros Hin. apply Hrest. apply list_elem_of_fmap. by exists s. }
  split; [|done]. rewrite Hl, !length_app. simpl. lia.
Qed.

(** X7.  With pairwise-distinct names, [moveUp] followed by [moveDown] of
    the same name restores the order for every entry but the first, and
    [moveDown] followed by [moveUp] restores it for every entry but the
    last. *)
Theorem move_there_and_back st :
  unique_names st ->
  (forall l1 p s l2,
      s_servers st = l1 ++ p :: s :: l2 ->
      exists st1 st2,
        moveUp host (name s) st = (Returned tt, st1) /\
        moveDown host (name s) st1 = (Returned tt, st2) /\
        s_servers st1 = l1 ++ s :: p :: l2 /\
        s_servers st2 = s_servers st) /\
  (forall l1 s q l2,
      s_servers st = l1 ++ s :: q :: l2 ->
      exists st1 st2,
        moveDown host (name s) st = (Returned tt, st1) /\
        moveUp host (name s) st1 = (Returned tt, st2) /\
        s_servers st1 = l1 ++ q :: s :: l2 /\
        s_servers st2 = s_servers st).
Proof.
  intros Hu. unfold unique_names, availableServers in Hu. split.
  - intros l1 p s l2 Hl. rewrite Hl in Hu.
    assert (Hs : name s ∉ map name (l1 ++ [p])).
    { rewrite (cons_middle p), app_assoc, map_app in Hu. apply NoDup_app in Hu.
      destruct Hu as (_ & Hdisj & _). intros Hin. apply (Hdisj _ Hin). left. }
    rewrite (moveUp_inner host st l1 p s l2) by done.
    eexists _, _. split; [reflexivity|].
    rewrite (moveDown_inner host _ l1 s p l2); [|done|].
    + split; [reflexivity|]. by rewrite Hl.
    + rewrite map_app, elem_of_app in Hs. by intros ?; apply Hs; left.
  - intros l1 s q l2 Hl. rewrite Hl in Hu.
    assert (Hs : name s ∉ map name l1).
    { rewrite map_app in Hu. apply NoDup_app in Hu.
      destruct Hu as (_ & Hdisj & _). intros Hin. apply (Hdisj _ Hin). left. }
    assert (Hq : name s <> name q).
    { rewrite map_app in Hu. apply NoDup_app in Hu. destruct Hu as (_ & _ & Hnd).
      simpl in Hnd. apply NoDup_cons in Hnd. destruct Hnd as [Hnot _].
      intros Heq. apply Hnot. rewrite Heq. left. }
    rewrite (moveDown_inner host st l1 s q l2) by done.
    eexists _, _. split; [reflexivity|].
    rewrite (moveUp_inner host _ l1 q s l2); [|done|].
    + split; [reflexivity|]. by rewrite Hl.
    + rewrite map_app, elem_of_app. simpl. rewrite list_elem_of_singleton.
      by intros [?|?].
Qed.

Lemma moveUp_outcome (n : string) st :
  exists l,
    moveUp host n st =
      (Returned tt, saved host l (s_deletedServers st) (heap_next st) st) /\
    l ≡ₚ s_servers st /\
    ((n ∉ availableServers st) -> l = s_servers st).
Proof.
  destruct (decide (n ∈ availableServers st)) as [Hn|Hn].
  - apply first_occurrence in Hn. destruct Hn as (l1 & s & l2 & Hl & <- & Hl1).
    destruct l1 as [|p l1 _] using rev_ind.
    + rewrite (moveUp_first host st s l2) by done. by eexists.
    + rewrite <- app_assoc in Hl. simpl in Hl.
      rewrite (moveUp_inner host st l1 p s l2) by done. eexists. split; [done|].
      split.
      * rewrite Hl. apply Permutation_app_head, perm_swap.
      * intros Habs. destruct Habs. unfold availableServers. rewrite Hl, map_app.
        simpl. apply elem_of_app. right. right. left.
  - rewrite moveUp_absent by done. by eexists.
Qed.

(** X8.  [moveUp] returns for every name and every registry, also for an
    absent name and on the empty registry; it only permutes [active], leaves
    the deferred-destruction list alone, and changes nothing but the stored
    list when the name is absent. *)
Theorem moveUp_always_returns (n : string) st :
  exists st',
    moveUp host n st = (Returned tt, st') /\
    s_servers st' ≡ₚ s_servers st /\
    s_deletedServers st' = s_deletedServers st /\
    persisted host st' /\
    ((n ∉ availableServers st) -> s_servers st' = s_servers st).
Proof.
  destruct (moveUp_outcome n st) as (l & Heq & Hperm & Habs).
  rewrite Heq. eexists. split; [reflexivity|]. simpl. repeat split; done.
Qed.

(** X9.  The deferred-destruction list is never drained and addresses are
    never handed out again: over every returning sequence of calls the list
    only grows at its end, and the allocator only advances. *)
Theorem deferred_destruction_append_only (cs : list Call) st st' :
  calls host cs st = (Returned tt, st') ->
  s_deletedServers st `prefix_of` s_deletedServers st' /\
  (heap_next st <= heap_next st')%nat.
Proof.
  intros Hrun.
  eapply (calls_preserve host
            (fun st0 => s_deletedServers st `prefix_of` s_deletedServers st0 /\
                        (heap_next st <= heap_next st0)%nat));
    [|split; [done|lia]|exact Hrun].
  intros st0 a r nx [Hp Hh] Ht. destruct Ht; simpl; (split; [|lia || done]); try done.
  by apply prefix_app_r.
Qed.

(** X10.  A removed name is free again: with pairwise-distinct names and
    distinct addresses, [remove] of a present name followed by [addServer]
    with that display name enters a new object under the unsuffixed name,
    while the removed object stays in the deferred-destruction list. *)
Theorem remove_then_addServer st (n : string) s (config : ServerConfiguration) :
  unique_names st -> heap_ok st -> find st n = Some s -> display config = n ->
  exists st1 server config' st2,
    remove host n st = (Returned tt, st1) /\
    addServer host config st1 = (Returned (server, config'), st2) /\
    name server = n /\
    addr server <> addr s /\
    find st2 n = Some server /\
    s ∈ s_deletedServers st2.
Proof.
  intros Hu Hheap Hfind Hd. apply find_Some in Hfind.
  destruct Hfind as (l1 & l2 & Hl & Hn & Hl1).
  subst n. rewrite (remove_present host st l1 s l2) by done.
  set (st1 := saved host (l1 ++ l2) (s_deletedServers st ++ [s]) (heap_next st) st).
  assert (Hfree : name s ∉ availableServers st1).
  { unfold unique_names, availableServers in Hu. rewrite Hl, map_app in Hu.
    simpl in Hu. rewrite <- Permutation_middle in Hu. apply NoDup_cons in Hu.
    unfold availableServers. simpl. rewrite map_app. apply Hu. }
  destruct (addServer_spec host config st1) as (N & Heq & _ & _ & Htaken).
  assert (HN : N = 0%nat).
  { destruct N as [|N]; [done|]. destruct Hfree. rewrite <- Hd.
    apply (Htaken 0%nat). lia. }
  subst N. simpl in Heq.
  set (server := mkServer (heap_next st)
                   (Config.setValue config ServerName (Config.value config ServerName)))
    in *.
  assert (Hname : name server = name s).
  { unfold server. rewrite name_setValue. exact Hd. }
  eexists st1, server, _, _. split; [done|]. split; [exact Heq|].
  split; [done|]. split.
  - simpl. destruct Hheap as [_ Hlt]. assert (addr s < heap_next st)%nat; [|lia].
    apply Hlt. rewrite Hl. apply elem_of_app. left. apply elem_of_app. right. left.
  - split.
    + rewrite <- Hname.
      apply (find_split (saved host (s_servers st1 ++ [server]) (s_deletedServers st1)
                               (S (heap_next st1)) st1) (l1 ++ l2) server []);
        [done|]. by rewrite Hname.
    + simpl. apply elem_of_app. right. left.
Qed.

End RemoveAndMove.

Section Teardown.
Context {QVariant YamlNode : Type}.
Variable host : Host QVariant YamlNode.
Implicit Types (st : State QVariant) (s : Server).

Lemma transition_heap_exact st active retired next :
  heap_exact st -> transition st active retired next ->
  heap_exact (saved host active retired next st).
Proof.
  unfold heap_exact. simpl.
  intros Hex [|server Ha Hn|l1 s l2 Hl|l1 x y l2 Hl]; [done|..].
  - rewrite seq_S. simpl.
    transitivity (map addr ((s_servers st ++ s_deletedServers st) ++ [server])).
    + apply Permutation_map. rewrite <- !app_assoc. apply Permutation_app_head.
      apply Permutation_app_comm.
    + rewrite map_app. simpl. rewrite Ha. by apply Permutation_app_tail.
  - rewrite <- Hex, Hl. apply Permutation_map (* same objects *).
    rewrite <- !app_assoc. simpl. rewrite <- (Permutation_middle l1).
    rewrite app_assoc, (app_assoc l1). rewrite <- Permutation_cons_append.
    symmetry. apply Permutation_middle.
  - rewrite <- Hex, Hl. apply Permutation_map. by rewrite (perm_swap x y).
Qed.

Lemma bootstrap_heap_exact (stored : list QVariant) :
  heap_exact (snd (bootstrap host stored)).
Proof.
  destruct stored as [|record records].
  - rewrite bootstrap_empty_store.
    assert (Hphase : heap_exact (snd (directory_phase host))).
    { unfold directory_phase. destruct (serverDirectory host) as [listing|].
      - destruct (forEach (import_file host) listing directory_start)
          as [r st1] eqn:Hloop. simpl.
        eapply (import_loop_preserve host heap_exact); [| |..|exact Hloop].
        + intros st evs _ Hst. exact Hst.
        + intros st server Hh Ha Hn. apply transition_heap_exact; [done|].
          by apply added.
        + by unfold heap_exact.
      - by unfold heap_exact. }
    destruct (directory_phase host) as [[[]|ex| |] st1]; simpl in *; try done.
    rewrite load_default_outcome. simpl.
    destruct (s_servers st1) eqn:Hl; simpl; [|done].
    unfold heap_exact in *. rewrite Hl in Hphase.
    cbn [s_servers s_deletedServers heap_next] in *.
    rewrite seq_S. cbn [app map addr Nat.add] in *.
    rewrite <- Hphase. apply Permutation_cons_append.
  - rewrite bootstrap_stored by done.
    generalize (decode_all host (record :: records)). intros configs.
    unfold heap_exact. cbn [snd s_servers s_deletedServers heap_next].
    by rewrite app_nil_r, allocate_addr.
Qed.

(** X11.  At exit, after bootstrap and any returning sequence of calls,
    [destroy] deletes every server object that was ever constructed exactly
    once: none is deleted twice and none is left over. *)
Theorem destroy_deletes_each_once (stored : list QVariant) (cs : list Call) st :
  calls host cs (snd (bootstrap host stored)) = (Returned tt, st) ->
  map addr (destroy st) ≡ₚ seq 0 (heap_next st) /\
  NoDup (map addr (destroy st)) /\
  length (destroy st) = heap_next st.
Proof.
  intros Hrun.
  assert (Hex : heap_exact st).
  { eapply (calls_preserve host heap_exact); [|apply bootstrap_heap_exact|exact Hrun].
    intros st0 a r n. apply transition_heap_exact. }
  unfold heap_exact in Hex. unfold destroy. split; [done|]. split.
  - rewrite Hex. apply NoDup_seq.
  - rewrite <- (length_map addr), Hex. apply length_seq.
Qed.

End Teardown.

Section Connections.
Context {QVariant : Type}.
Implicit Types (st : State QVariant) (s : Server).

Lemma connect_suffix st l1 l2 :
  unique_names st -> s_servers st = l1 ++ l2 ->
  connectServers st (map name l2) = map Open l2.
Proof.
  intros Hu. revert l1. induction l2 as [|s l2 IH]; intros l1 Hl; simpl; [done|].
  assert (Hs : name s ∉ map name l1).
  { unfold unique_names, availableServers in Hu. rewrite Hl, map_app in Hu.
    apply NoDup_app in Hu. destruct Hu as (_ & Hdisj & _).
    intros Hin. apply (Hdisj _ Hin). left. }
  destruct (find_split st l1 s l2 Hl Hs) as [_ ->].
  f_equal. apply (IH (l1 ++ [s])). by rewrite <- app_assoc.
Qed.

(** X12.  With pairwise-distinct names, [connectServers] on the list that
    [availableServers] returns opens every server of [active] exactly once,
    in order: the servers that [closeAllConnections] closes. *)
Theorem connect_all_available st :
  unique_names st ->
  connectServers st (availableServers st) = map Open (s_servers st) /\
  map target (connectServers st (availableServers st))
    = map target (closeAllConnections st).
Proof.
  intros Hu.
  assert (Hc : connectServers st (availableServers st) = map Open (s_servers st)).
  { by apply (connect_suffix st []). }
  split; [done|]. rewrite Hc. unfold closeAllConnections.
  rewrite !map_map. done.
Qed.

(** X13.  [connectServers] never fails on a name that is not found: absent
    names are skipped, every call it makes is an [Open] of the server that
    [find] gives for one of the requested names, at most one per request,
    and requests are served in the order given. *)
Theorem connectServers_skips_absent st (servers : list string) :
  (forall c, c ∈ connectServers st servers ->
     exists n, n ∈ servers /\ find st n = Some (target c) /\ c = Open (target c)) /\
  (length (connectServers st servers) <= length servers)%nat /\
  ((forall n, n ∈ servers -> n ∉ availableServers st) ->
     connectServers st servers = []) /\
  (forall more,
     connectServers st (servers ++ more)
       = connectServers st servers ++ connectServers st more).
Proof.
  split; [|split; [|split]].
  - induction servers as [|n servers IH]; simpl; intros c Hc.
    + by apply elem_of_nil in Hc.
    + destruct (find st n) as [s|] eqn:Hf.
      * apply elem_of_cons in Hc. destruct Hc as [->|Hc].
        -- exists n. split; [left|done].
        -- destruct (IH c Hc) as (m & Hm & Hrest). exists m. split; [by right|done].
      * destruct (IH c Hc) as (m & Hm & Hrest). exists m. split; [by right|done].
  - induction servers as [|n servers IH]; simpl; [done|].
    destruct (find st n); simpl; lia.
  - induction servers as [|n servers IH]; simpl; intros Habs; [done|].
    assert (Hn : find st n = None) by (apply find_None, Habs; left).
    rewrite Hn. apply IH. intros m Hm. apply Habs. by right.
  - intros more. induction servers as [|n servers IH]; simpl; [done|].
    destruct (find st n); simpl; by rewrite IH.
Qed.

End Connections.

Section BootstrapFurther.
Context {QVariant YamlNode : Type}.
Variable host : Host QVariant YamlNode.
Implicit Types (st : State QVariant) (s : Server).

Lemma bootstrap_sets_instance (stored : list QVariant) :
  s_instance (snd (bootstrap host stored)) = true.
Proof.
  destruct stored as [|record records].
  - rewrite bootstrap_empty_store.
    assert (Hphase : s_instance (snd (directory_phase host)) = true).
    { unfold directory_phase. destruct (serverDirectory host) as [listing|]; [|done].
      destruct (forEach (import_file host) listing directory_start)
        as [r st1] eqn:Hloop. simpl.
      by eapply (import_loop_preserve host (fun st => s_instance st = true));
        [| |..|exact Hloop]. }
    destruct (directory_phase host) as [[[]|ex| |] st1]; simpl in *; try done.
    rewrite load_default_outcome. simpl. by destruct (QList.isEmpty (s_servers st1)).
  - by rewrite bootstrap_stored.
Qed.

(** X14.  [instance()] bootstraps once: in every state reached by bootstrap
    and a returning sequence of calls, a further call of [instance()]
    returns without loading, appending or reporting anything. *)
Theorem instance_bootstraps_once (stored : list QVariant) (cs : list Call) st :
  calls host cs (snd (bootstrap host stored)) = (Returned tt, st) ->
  instance host st = (Returned tt, st).
Proof.
  intros Hrun.
  assert (Hi : s_instance st = true).
  { eapply (calls_preserve host (fun st => s_instance st = true));
      [|apply bootstrap_sets_instance|exact Hrun]. done. }
  unfold instance, mbind, M_bind, bind, get. by rewrite Hi.
Qed.

Lemma decode_prefix (good : list QVariant) bad rest ex :
  decode_error host good = None -> fromQVariant host bad = inl ex ->
  decode_all host (good ++ bad :: rest) = decode_all host good /\
  decode_error host (good ++ bad :: rest) = Some ex /\
  length (decode_all host good) = length good.
Proof.
  intros Hgood Hbad. induction good as [|record good IH]; simpl in *.
  - by rewrite Hbad.
  - destruct (fromQVariant host record); [done|].
    destruct (IH Hgood) as (Hall & Herr & Hlen). rewrite Hall, Herr. simpl.
    by rewrite Hlen.
Qed.

(** X15.  A stored list whose records construct up to some record that
    throws is loaded up to that record: bootstrap returns after the warning
    with one server per record before the failing one, in order; the records
    after it are not loaded, the stored list is left as it was, and neither
    fallback runs. *)
Theorem bootstrap_partial_load (good : list QVariant) (bad : QVariant)
    (rest : list QVariant) (ex : Exception) :
  decode_error host good = None ->
  fromQVariant host bad = inl ex ->
  bootstrap host (good ++ bad :: rest) =
    (Returned tt,
     mkState true (allocate 0 (decode_all host good)) [] (good ++ bad :: rest)
             (length good) [MsgBoxWarning (warning_text ex)]) /\
  length (allocate 0 (decode_all host good)) = length good.
Proof.
  intros Hgood Hbad.
  destruct (decode_prefix good bad rest ex Hgood Hbad) as (Hall & Herr & Hlen).
  rewrite bootstrap_stored by (by destruct good).
  rewrite Hall, Herr, Hlen, allocate_length, Hlen. done.
Qed.

(** X16.  After such a partial load the stored list still holds every
    record, but the first mutating call overwrites it: already a [moveUp],
    which adds and removes nothing, leaves a stored list with one record per
    loaded server, so the failing record and the records after it are gone
    from the store. *)
Theorem partial_load_then_save (good : list QVariant) (bad : QVariant)
    (rest : list QVariant) (ex : Exception) (n : string) :
  decode_error host good = None ->
  fromQVariant host bad = inl ex ->
  let loaded := snd (bootstrap host (good ++ bad :: rest)) in
  exists st',
    moveUp host n loaded = (Returned tt, st') /\
    ServerConfigurationList loaded = good ++ bad :: rest /\
    ServerConfigurationList st' = serialized host (s_servers st') /\
    length (ServerConfigurationList st') = length good /\
    (length (ServerConfigurationList st') < length (ServerConfigurationList loaded))%nat.
Proof.
  intros Hgood Hbad. simpl.
  destruct (decode_prefix good bad rest ex Hgood Hbad) as (Hall & Herr & Hlen).
  rewrite bootstrap_stored by (by destruct good). rewrite Hall, Herr. simpl.
  set (loaded := mkState true _ _ _ _ _).
  destruct (moveUp_outcome host n loaded) as (l & Heq & Hperm & _).
  rewrite Heq. eexists. split; [reflexivity|]. simpl. split; [done|]. split; [done|].
  assert (Hl : length (serialized host l) = length good).
  { unfold serialized. rewrite length_map, Hperm. simpl.
    by rewrite allocate_length. }
  split; [done|]. rewrite Hl, length_app. simpl. lia.
Qed.

End BootstrapFurther.

Section FilesFurther.
Context {QVariant YamlNode : Type}.
Variable host : Host QVariant YamlNode.
Implicit Types (st : State QVariant) (s : Server).

Ltac open_hyps :=
  repeat match goal with
         | H : _ \/ _ |- _ => destruct H
         | H : _ /\ _ |- _ => destruct H
         | H : ex _ |- _ => destruct H
         end.

(** X17.  What [loadFromFile] does in every case: it never touches the
    registry, only the log; it reports success exactly when the file opens,
    its first block is present and a configuration is constructed from that
    block, whatever diagnostics the parser left and whatever blocks follow;
    when it reports failure the caller's configuration is as it was; and the
    only exception that escapes is the one thrown by constructing from the
    first block. *)
Theorem loadFromFile_characterised (path : string) (config : ServerConfiguration) st :
  exists r evs,
    loadFromFile host path config st = (r, with_output evs st) /\
    Forall file_event evs /\
    (parseFile host path = None -> r = Returned (false, config)) /\
    (forall c, r = Returned (true, c) <-> file_configuration host path = Some c) /\
    (forall c, r = Returned (false, c) -> c = config) /\
    (forall ex, r = Thrown ex <->
       exists parsed node,
         parseFile host path = Some parsed /\
         QList.first (yamlNodes parsed) = Some (Some node) /\
         fromYamlNode host node = inl ex) /\
    r <> Diverged.
Proof.
  unfold loadFromFile, file_configuration.
  destruct (parseFile host path) as [parsed|] eqn:Hopen.
  - assert (Hlog : exists evs,
        (if QList.isEmpty (errors parsed) then ret tt
         else emit (LogError (String.concat newline (errors parsed)))) st
          = (Returned tt, with_output evs st) /\ Forall file_event evs).
    { destruct (QList.isEmpty (errors parsed)).
      - exists []. by rewrite with_output_nil.
      - eexists [_]. split; [reflexivity|]. by repeat constructor. }
    destruct Hlog as (evs & Hlog & Hevs).
    unfold mbind, M_bind, bind. rewrite Hlog.
    destruct (QList.first (yamlNodes parsed)) as [[node|]|] eqn:Hfirst; simpl.
    + unfold emit, modify, construct. rewrite with_output_app.
      assert (Hevs' : Forall file_event (evs ++ [DbgDump])).
      { apply Forall_app. split; [done|]. by repeat constructor. }
      destruct (fromYamlNode host node) as [ex|c] eqn:Hc; simpl.
      * exists (Thrown ex), (evs ++ [DbgDump]).
        repeat split; try done; intros; open_hyps; simplify_eq; try congruence.
        by exists parsed, node.
      * exists (Returned (true, c)), (evs ++ [DbgDump]).
        repeat split; try done; intros; open_hyps; simplify_eq; congruence.
    + exists (Returned (false, config)), evs.
      repeat split; try done; intros; open_hyps; simplify_eq; congruence.
    + exists Violation, evs.
      repeat split; try done; intros; open_hyps; simplify_eq; congruence.
  - eexists (Returned (false, config)), [_]. split; [reflexivity|].
    repeat split; try done; [by repeat constructor|..];
      intros; open_hyps; simplify_eq; congruence.
Qed.

Lemma persisted_with_output evs st :
  persisted host st -> persisted host (with_output evs st).
Proof. done. Qed.

(** The two ways bootstrap ends on an empty stored list. *)
Lemma bootstrap_empty_cases :
  let r := bootstrap host [] in
  (persisted host (snd r) /\ (DbgAppendingDefault ∉ output (snd r))) \/
  (fst r = Returned tt /\
   (DbgAppendingDefault ∈ output (snd r)) /\
   ServerConfigurationList (snd r) = [] /\
   map configuration (s_servers (snd r)) = [defaultConfiguration host]).
Proof.
  simpl. rewrite bootstrap_empty_store.
  assert (Hphase : persisted host (snd (directory_phase host)) /\
                   (DbgAppendingDefault ∉ output (snd (directory_phase host)))).
  { unfold directory_phase. destruct (serverDirectory host) as [listing|].
    - destruct (forEach (import_file host) listing directory_start)
        as [r st1] eqn:Hloop. simpl.
      eapply (import_loop_preserve host
                (fun st => persisted host st /\ (DbgAppendingDefault ∉ output st)));
        [| |..|exact Hloop]; simpl.
      + intros st evs Hevs [Hp Hout]. split; [done|]. intros Hin.
        apply elem_of_app in Hin. destruct Hin as [Hin|Hin]; [done|].
        rewrite Forall_forall in Hevs. by apply Hevs in Hin.
      + intros st server [Hp Hout] _ _. done.
      + split; [done|]. rewrite list_elem_of_singleton. by intros ?.
    - simpl. split; [done|]. rewrite list_elem_of_singleton. by intros ?. }
  destruct (directory_phase host) as [[[]|ex| |] st1]; simpl in *;
    destruct Hphase as [Hp Hout].
  - rewrite load_default_outcome. simpl.
    destruct (s_servers st1) eqn:Hl; simpl.
    + right. split; [done|]. split.
      { apply elem_of_app. right. left. }
      unfold persisted in Hp. rewrite Hl in Hp. done.
    + left. done.
  - left. split; [done|]. rewrite elem_of_app, list_elem_of_singleton.
    by intros [?|?].
  - by left.
  - by left.
Qed.

(** X18.  Bootstrap writes the stored list only by importing legacy files:
    a non-empty stored list is left exactly as it was; on an empty stored
    list bootstrap ends with the stored list equal to the serialization of
    [active] unless it appended the hardcoded default, which it does not
    persist: then [active] holds the default server while the stored list is
    still empty. *)
Theorem bootstrap_persists_imports_only (stored : list QVariant) :
  let st' := snd (bootstrap host stored) in
  (stored <> [] -> ServerConfigurationList st' = stored) /\
  (stored = [] -> (DbgAppendingDefault ∉ output st') -> persisted host st') /\
  (stored = [] -> (DbgAppendingDefault ∈ output st') ->
     ServerConfigurationList st' = [] /\
     map configuration (s_servers st') = [defaultConfiguration host]).
Proof.
  simpl. split; [|split].
  - intros Hne. by rewrite bootstrap_stored.
  - intros -> Hout. destruct bootstrap_empty_cases as [[Hp _]|(_ & Hin & _)]; done.
  - intros -> Hin. destruct bootstrap_empty_cases as [[_ Hout]|(_ & _ & Hs & Hc)]; done.
Qed.

(** X19.  A legacy file whose first block fails to construct ends
    bootstrap: when the first file of the listing is such a file, bootstrap
    returns after the warning with [active] empty; no later file is read and
    the hardcoded default is not appended. *)
Theorem bootstrap_legacy_file_throws (path : string) (rest : list string)
    (parsed : ParsedFile YamlNode) (node : YamlNode) (ex : Exception) :
  serverDirectory host = Some (path :: rest) ->
  parseFile host path = Some parsed ->
  QList.first (yamlNodes parsed) = Some (Some node) ->
  fromYamlNode host node = inl ex ->
  let r := bootstrap host [] in
  fst r = Returned tt /\
  s_servers (snd r) = [] /\
  (MsgBoxWarning (warning_text ex) ∈ output (snd r)) /\
  (DbgAppendingDefault ∉ output (snd r)) /\
  forall p, p <> path -> DbgReadingFile p ∉ output (snd r).
Proof.
  intros Hdir Hopen Hfirst Hthrow. simpl. rewrite bootstrap_empty_store.
  unfold directory_phase. rewrite Hdir. cbn [forEach].
  unfold mbind, M_bind, bind, import_file, mbind, M_bind, bind, loadFromFile.
  rewrite Hopen. unfold mbind, M_bind, bind. rewrite Hfirst.
  destruct (QList.isEmpty (errors parsed)); simpl;
    unfold construct; rewrite Hthrow; simpl;
    (split; [done|]; split; [done|]);
    rewrite ?elem_of_cons, ?elem_of_nil;
    (split; [tauto|]; split; [|intros p Hp]);
    rewrite ?elem_of_cons, ?elem_of_nil; intros Hin; decompose [or] Hin;
    try done; simplify_eq.
Qed.

End FilesFurther.

Section LegacyImport.
Context {QVariant YamlNode : Type}.
Variable host : Host QVariant YamlNode.
Implicit Types (st : State QVariant) (s : Server).

Lemma find_same_servers st1 st2 (n : string) :
  s_servers st1 = s_servers st2 -> find st1 n = find st2 n.
Proof. intros Hl. unfold find, indexOf. by rewrite Hl. Qed.

Lemma addServer_loop_same_servers fuel st1 st2 base n count :
  s_servers st1 = s_servers st2 ->
  addServer_loop fuel st1 base n count = addServer_loop fuel st2 base n count.
Proof.
  intros Hl. revert n count. induction fuel as [|fuel IH]; intros n count; simpl;
    rewrite (find_same_servers st1 st2 n Hl); [done|].
  destruct (find st2 n); [apply IH|done].
Qed.

Lemma addServer_same_registry (config : ServerConfiguration) st1 st2 :
  same_registry st1 st2 ->
  exists server config',
    addServer host config st1 = (Returned (server, config'), snd (addServer host config st1)) /\
    addServer host config st2 = (Returned (server, config'), snd (addServer host config st2)) /\
    same_registry (snd (addServer host config st1)) (snd (addServer host config st2)).
Proof.
  intros (Hl & Hd & Hp & Hh).
  destruct (addServer_spec host config st2) as (N & Heq2 & _).
  assert (Hloop : addServer_loop (length (s_servers st1)) st1
                    (Config.value config ServerName) (Config.value config ServerName) 0
                  = addServer_loop (length (s_servers st2)) st2
                    (Config.value config ServerName) (Config.value config ServerName) 0).
  { rewrite Hl. by apply addServer_loop_same_servers. }
  simpl in Heq2. rewrite Heq2. simpl.
  unfold addServer, mbind, M_bind, bind, get in Heq2 |- *.
  rewrite Hloop.
  destruct (addServer_loop (length (s_servers st2)) st2 _ _ 0) as [resolved|];
    [|discriminate Heq2].
  simpl in Heq2 |- *. injection Heq2 as Hserver Hconfig Hstate.
  rewrite Hh, Hserver. eexists _, _. split; [reflexivity|]. split; [reflexivity|].
  unfold same_registry. simpl. unfold QList.append. by rewrite Hl, Hd.
Qed.

Lemma file_configuration_importable (path : string) :
  importable host path -> exists c, file_configuration host path = Some c.
Proof.
  intros (parsed & node & c & Ho & Hf & Hc). exists c.
  unfold file_configuration. by rewrite Ho, Hf, Hc.
Qed.

Lemma file_configuration_rejected (path : string) :
  rejected host path -> file_configuration host path = None.
Proof.
  unfold file_configuration.
  intros [Ho|(parsed & Ho & Hf)]; rewrite Ho; [done|]. by rewrite Hf.
Qed.

Lemma import_file_configuration (path : string) (c : ServerConfiguration) st :
  file_configuration host path = Some c ->
  exists evs,
    import_file host path st =
      (match fst (addServer host c (with_output evs st)) with
       | Returned _ => Returned tt
       | Thrown ex => Thrown ex
       | Violation => Violation
       | Diverged => Diverged
       end,
       snd (addServer host c (with_output evs st))).
Proof.
  unfold file_configuration.
  destruct (parseFile host path) as [parsed|] eqn:Ho; [|done].
  destruct (QList.first (yamlNodes parsed)) as [[node|]|] eqn:Hf; [|done..].
  destruct (fromYamlNode host node) as [ex|c'] eqn:Hc; [done|].
  intros [= ->].
  unfold import_file, mbind, M_bind, bind, emit, modify, loadFromFile. rewrite Ho.
  unfold mbind, M_bind, bind, emit, modify, ret, guarded, construct. rewrite Hf.
  destruct (QList.isEmpty (errors parsed)); unfold ret; cbv beta iota; rewrite Hc;
    cbv beta iota; rewrite ?with_output_app.
  - exists ([DbgReadingFile path] ++ [DbgDump]).
    destruct (addServer host c _) as [[] ?]; reflexivity.
  - exists (([DbgReadingFile path]
               ++ [LogError (String.concat newline (errors parsed))]) ++ [DbgDump]).
    destruct (addServer host c _) as [[] ?]; reflexivity.
Qed.

(** The loop over the listing and the calls of [addServer] on the
    configurations of the files keep the same registry. *)
Lemma import_loop_as_addServer (listing : list string) st1 st2 :
  (forall path, path ∈ listing -> importable host path \/ rejected host path) ->
  same_registry st1 st2 ->
  fst (forEach (import_file host) listing st1) = Returned tt /\
  fst (calls host (map AddServer (omap (file_configuration host) listing)) st2)
    = Returned tt /\
  same_registry
    (snd (forEach (import_file host) listing st1))
    (snd (calls host (map AddServer (omap (file_configuration host) listing)) st2)).
Proof.
  revert st1 st2. induction listing as [|path listing IH]; intros st1 st2 Hfiles Hsame.
  - done.
  - assert (Hrest : forall p, p ∈ listing -> importable host p \/ rejected host p).
    { intros p Hp. apply Hfiles. by right. }
    assert (Homap : omap (file_configuration host) (path :: listing)
                    = match file_configuration host path with
                      | Some c0 => c0 :: omap (file_configuration host) listing
                      | None => omap (file_configuration host) listing
                      end) by reflexivity.
    cbn [forEach]. unfold mbind, M_bind, bind.
    destruct (Hfiles path) as [Himp|Hrej]; [left|..].
    + destruct (file_configuration_importable path Himp) as [c Hc].
      rewrite Homap.
      rewrite Hc.
      destruct (import_file_configuration path c st1 Hc) as (evs & ->).
      destruct (addServer_same_registry c (with_output evs st1) st2)
        as (server & config' & Heq1 & Heq2 & Hsame'); [done|].
      rewrite Heq1. simpl. unfold calls. cbn [map forEach call].
      unfold mbind, M_bind, bind. rewrite Heq2. simpl.
      by apply IH.
    + rewrite Homap.
      rewrite (file_configuration_rejected path Hrej).
      destruct (import_file_outcome host path st1)
        as (evs & _ & [(r & Heq & _ & Hret)|(server & Himp & _)]).
      * rewrite Heq, (Hret Hrej). by apply IH.
      * exfalso. destruct (file_configuration_importable path Himp) as [c Hc].
        rewrite (file_configuration_rejected path Hrej) in Hc. done.
Qed.

(** X20.  Importing legacy files at bootstrap is adding them with
    [addServer]: when the stored list is empty and every listed file either
    is importable or yields nothing, and at least one is importable,
    bootstrap returns with the servers, the names, the addresses and the
    stored list that calling [addServer] on the files' configurations, in
    listing order, gives on the empty registry; nothing else is appended. *)
Theorem bootstrap_imports_as_addServer (listing : list string) :
  serverDirectory host = Some listing ->
  (forall path, path ∈ listing -> importable host path \/ rejected host path) ->
  omap (file_configuration host) listing <> [] ->
  fst (bootstrap host []) = Returned tt /\
  same_registry
    (snd (bootstrap host []))
    (snd (calls host (map AddServer (omap (file_configuration host) listing))
            (process_start []))).
Proof.
  intros Hdir Hfiles Hsome. rewrite bootstrap_empty_store.
  unfold directory_phase. rewrite Hdir.
  destruct (import_loop_as_addServer listing directory_start (process_start []) Hfiles)
    as (Hret & Hadd & Hsame); [done|].
  destruct (forEach (import_file host) listing directory_start) as [r st1].
  simpl in Hret, Hsame. subst r.
  destruct (add_all_spec host (omap (file_configuration host) listing) (process_start []))
    as (st' & Hrun & Hlen & _); [apply NoDup_nil_2|].
  rewrite Hrun in Hsame |- *. simpl in Hsame, Hlen |- *.
  rewrite load_default_outcome.
  destruct Hsame as (Hl & Hrest). 
  destruct (s_servers st1) eqn:Hs; simpl.
  - exfalso. rewrite <- Hl in Hlen. simpl in Hlen.
    destruct (omap (file_configuration host) listing); [done|]. simpl in Hlen. lia.
  - split; [done|]. unfold same_registry. by rewrite Hs.
Qed.

End LegacyImport.

(** ** Instances of the further properties *)

Lemma remove_by_reference_agrees_witness :
  remove_server Fixture.plain Fixture.beta Fixture.three
    = remove Fixture.plain "beta" Fixture.three.
Proof.
  apply (remove_by_reference_agrees Fixture.plain Fixture.three "beta" Fixture.beta).
  - exact fixture_three_heap.
  - reflexivity.
Defined.

Lemma remove_by_reference_twice_witness :
  s_deletedServers
    (snd (remove_server Fixture.plain Fixture.beta
            (snd (remove_server Fixture.plain Fixture.beta Fixture.three))))
    = [Fixture.beta].
Proof.
  destruct (remove_by_reference_twice Fixture.plain Fixture.three Fixture.beta)
    as (st1 & st2 & H1 & H2 & _ & _ & Hd1 & _ & Hd2).
  - exact fixture_three_heap.
  - right. left.
  - rewrite H1. simpl. rewrite H2. simpl. rewrite Hd2, Hd1. reflexivity.
Defined.

Lemma move_there_and_back_witness :
  s_servers
    (snd (moveDown Fixture.plain "beta" (snd (moveUp Fixture.plain "beta" Fixture.three))))
    = [Fixture.alpha; Fixture.beta; Fixture.gamma].
Proof.
  destruct (move_there_and_back Fixture.plain Fixture.three fixture_three_unique)
    as [Hup _].
  destruct (Hup [] Fixture.alpha Fixture.beta [Fixture.gamma] eq_refl)
    as (st1 & st2 & H1 & H2 & _ & Hback).
  change (name Fixture.beta) with "beta" in H1, H2.
  rewrite H1. simpl. rewrite H2. exact Hback.
Defined.

Lemma deferred_destruction_append_only_witness :
  s_deletedServers Samples.two_and_one
    `prefix_of`
  s_deletedServers
    (snd (calls Fixture.plain
            [Remove "alpha"; AddServer (Fixture.named "alpha")]
            Samples.two_and_one)).
Proof.
  apply (deferred_destruction_append_only Fixture.plain
           [Remove "alpha"; AddServer (Fixture.named "alpha")] Samples.two_and_one).
  vm_compute. reflexivity.
Defined.

Lemma remove_then_addServer_witness :
  exists st1 server config' st2,
    remove Fixture.plain "beta" Fixture.three = (Returned tt, st1) /\
    addServer Fixture.plain (Fixture.named "beta") st1
      = (Returned (server, config'), st2) /\
    name server = "beta" /\
    addr server <> addr Fixture.beta /\
    find st2 "beta" = Some server /\
    Fixture.beta ∈ s_deletedServers st2.
Proof.
  apply (remove_then_addServer Fixture.plain Fixture.three "beta" Fixture.beta
           (Fixture.named "beta") fixture_three_unique fixture_three_heap);
    reflexivity.
Defined.

Lemma destroy_deletes_each_once_witness :
  NoDup (map addr
           (destroy
              (snd (calls Fixture.plain
                      [AddServer (Fixture.named "alpha"); Remove "alpha"; MoveUp "beta"]
                      (snd (bootstrap Fixture.plain
                              [Fixture.Stored (Fixture.named "alpha");
                               Fixture.Stored (Fixture.named "beta")])))))).
Proof.
  apply (destroy_deletes_each_once Fixture.plain
           [Fixture.Stored (Fixture.named "alpha"); Fixture.Stored (Fixture.named "beta")]
           [AddServer (Fixture.named "alpha"); Remove "alpha"; MoveUp "beta"]).
  vm_compute. reflexivity.
Defined.

Lemma connect_all_available_witness :
  connectServers Fixture.three (availableServers Fixture.three)
    = [Open Fixture.alpha; Open Fixture.beta; Open Fixture.gamma].
Proof.
  apply (connect_all_available Fixture.three fixture_three_unique).
Defined.

Lemma instance_bootstraps_once_witness :
  fst (instance Fixture.plain
         (snd (calls Fixture.plain [AddServer (Fixture.named "alpha")]
                 (snd (bootstrap Fixture.plain [])))))
    = Returned tt.
Proof.
  rewrite (instance_bootstraps_once Fixture.plain []
             [AddServer (Fixture.named "alpha")]
             (snd (calls Fixture.plain [AddServer (Fixture.named "alpha")]
                     (snd (bootstrap Fixture.plain []))))).
  - reflexivity.
  - vm_compute. reflexivity.
Defined.

Lemma bootstrap_partial_load_witness :
  availableServers
    (snd (bootstrap Fixture.plain
            [Fixture.Stored (Fixture.named "alpha"); Fixture.Corrupt;
             Fixture.Stored (Fixture.named "beta")]))
    = ["alpha"].
Proof.
  destruct (bootstrap_partial_load Fixture.plain
              [Fixture.Stored (Fixture.named "alpha")] Fixture.Corrupt
              [Fixture.Stored (Fixture.named "beta")] "Server type not found"
              eq_refl eq_refl) as [Heq _].
  exact (f_equal (fun r => availableServers (snd r)) Heq).
Defined.

Lemma partial_load_then_save_witness :
  exists st',
    moveUp Fixture.plain "alpha"
      (snd (bootstrap Fixture.plain
              [Fixture.Stored (Fixture.named "alpha"); Fixture.Corrupt;
               Fixture.Stored (Fixture.named "beta")]))
      = (Returned tt, st') /\
    length (ServerConfigurationList st') = 1%nat.
Proof.
  destruct (partial_load_then_save Fixture.plain
              [Fixture.Stored (Fixture.named "alpha")] Fixture.Corrupt
              [Fixture.Stored (Fixture.named "beta")] "Server type not found" "alpha"
              eq_refl eq_refl) as (st' & Hmove & _ & _ & Hlen & _).
  exists st'. split; [exact Hmove|exact Hlen].
Defined.

Lemma bootstrap_persists_imports_only_witness :
  ServerConfigurationList
    (snd (bootstrap Fixture.plain [Fixture.Corrupt; Fixture.Stored (Fixture.named "alpha")]))
    = [Fixture.Corrupt; Fixture.Stored (Fixture.named "alpha")] /\
  persisted Fixture.legacy (snd (bootstrap Fixture.legacy [])) /\
  ServerConfigurationList (snd (bootstrap Fixture.plain [])) = [].
Proof.
  split; [|split].
  - apply (bootstrap_persists_imports_only Fixture.plain
             [Fixture.Corrupt; Fixture.Stored (Fixture.named "alpha")]).
    discriminate.
  - destruct (bootstrap_persists_imports_only Fixture.legacy []) as (_ & Himport & _).
    apply (Himport eq_refl).
    assert (Hout : output (snd (bootstrap Fixture.legacy []))
                   = [DbgServerDirectory; DbgReadingFile "/share/cluster.cfg"; DbgDump])
      by (vm_compute; reflexivity).
    rewrite Hout, !elem_of_cons, elem_of_nil. intros Hin. decompose [or] Hin; done.
  - destruct (bootstrap_persists_imports_only Fixture.plain []) as (_ & _ & Hdefault).
    apply (Hdefault eq_refl).
    assert (Hout : output (snd (bootstrap Fixture.plain []))
                   = [DbgServerDirectory; DbgAppendingDefault])
      by (vm_compute; reflexivity).
    rewrite Hout. right. left.
Defined.

Lemma bootstrap_legacy_file_throws_witness :
  s_servers (snd (bootstrap Samples.strict [])) = [] /\
  (DbgReadingFile "/share/good.cfg" ∉ output (snd (bootstrap Samples.strict []))).
Proof.
  destruct (bootstrap_legacy_file_throws Samples.strict
              "/share/bad.cfg" ["/share/good.cfg"]
              (mkParsedFile [] [Some (Fixture.Block ∅)]) (Fixture.Block ∅)
              "Server name not found" eq_refl eq_refl eq_refl eq_refl)
    as (_ & Hempty & _ & _ & Hread).
  split; [exact Hempty|]. apply Hread. discriminate.
Defined.

Lemma bootstrap_imports_as_addServer_witness :
  availableServers (snd (bootstrap Samples.twins [])) = ["cluster"; "cluster_1"].
Proof.
  destruct (bootstrap_imports_as_addServer Samples.twins
              ["/share/a.cfg"; "/share/gone.cfg"; "/share/b.cfg"] eq_refl)
    as (_ & Hservers & _).
  - intros path Hp.
    apply elem_of_cons in Hp. destruct Hp as [->|Hp].
    { left. by eexists _, _, _. }
    apply elem_of_cons in Hp. destruct Hp as [->|Hp].
    { right. by left. }
    apply elem_of_cons in Hp. destruct Hp as [->|Hp].
    { left. by eexists _, _, _. }
    by apply elem_of_nil in Hp.
  - vm_compute. discriminate.
  - unfold availableServers. rewrite Hservers. vm_compute. reflexivity.
Defined.
